(** * LocalFS: POSIX path algebra and directory navigator

    A shallow embedding of [src/LocalFS.ts] and of the path library it
    imports ([normalize], [resolve], [toArray], [toString]).

    JavaScript arrays of strings are lists of strings; an index that is
    out of range reads [undefined], which is [None] here.  Asynchronous
    backend calls are run one after the other, as a state-and-exception
    monad over the backend. *)

From Stdlib Require Import String Ascii Bool Arith Lia List.
Import ListNotations.
Local Open Scope string_scope.
Local Open Scope list_scope.

(* ================================================================== *)
(** * JavaScript array and string primitives used by the source *)
(* ================================================================== *)

Module Js.

(** [arr[i]]: [None] stands for [undefined]. *)
Definition get {A} (arr : list A) (i : nat) : option A := nth_error arr i.

(** [arr.at(-1)] *)
Definition at_last {A} (arr : list A) : option A :=
  match arr with
  | [] => None
  | _ => nth_error arr (length arr - 1)
  end.

(** [arr.pop()], the array that is left. *)
Definition pop {A} (arr : list A) : list A := removelast arr.

(** [arr.push(x)], the array that is left. *)
Definition push {A} (arr : list A) (x : A) : list A := arr ++ [x].

(** [a === b] on two values that are a string or [undefined]. *)
Definition strict_eq (a b : option string) : bool :=
  match a, b with
  | Some x, Some y => String.eqb x y
  | None, None => true
  | _, _ => false
  end.

(** [s.split(sep)] for a one-character separator. *)
Fixpoint split (sep : ascii) (s : string) : list string :=
  match s with
  | EmptyString => [EmptyString]
  | String c s' =>
      if Ascii.eqb c sep then EmptyString :: split sep s'
      else match split sep s' with
           | [] => [String c EmptyString]
           | x :: xs => String c x :: xs
           end
  end.

(** [arr.join(sep)] *)
Fixpoint join (sep : string) (arr : list string) : string :=
  match arr with
  | [] => ""
  | [x] => x
  | x :: rest => x ++ sep ++ join sep rest
  end.

(** What a platform call receives for a string argument that is
    [undefined]. *)
Definition to_string (p : option string) : string :=
  match p with
  | Some s => s
  | None => "undefined"
  end.

End Js.

(* ================================================================== *)
(** * The path library *)
(* ================================================================== *)

Module Path.

Definition ROOT_NAME : string := "".
Definition PATH_SEPERATOR_CHAR : ascii := "/"%char.
Definition PATH_SEPERATOR : string := String PATH_SEPERATOR_CHAR EmptyString.

(** The three locals of [normalize]. *)
Record NState := mkNState {
  res : list string;
  segCount : nat;
  isAbsolute : bool
}.

Inductive Flow :=
| Continue (s : NState)
| Return (r : list string).

(** One pass through the body of the [for] loop of [normalize], at
    index [i] with [p = path[i]].  At [i = l] the element is [undefined]:
    it is not [ROOT_NAME], and [!p] holds. *)
Definition normalize_body (allowUpstream : bool) (i : nat) (p : option string)
    (s : NState) : Flow :=
  match p with
  | None => Continue s
  | Some p =>
      if (i =? 0)%nat && String.eqb p ROOT_NAME then
        Continue (mkNState (Js.push (res s) p) (segCount s) true)
      else if String.eqb p "" || String.eqb p "." then
        Continue s
      else if String.eqb p ".." then
        if isAbsolute s && (1 <? length (res s))%nat then
          Continue (mkNState (Js.pop (res s)) (segCount s) (isAbsolute s))
        else if negb (isAbsolute s) && allowUpstream then
          if (0 <? segCount s)%nat then
            Continue (mkNState (Js.pop (res s)) (segCount s - 1) (isAbsolute s))
          else
            Continue (mkNState (Js.push (res s) "..") (segCount s) (isAbsolute s))
        else if negb (isAbsolute s) && (0 <? length (res s))%nat then
          Continue (mkNState (Js.pop (res s)) (segCount s) (isAbsolute s))
        else if negb (isAbsolute s) then
          Return []
        else
          Continue s
      else
        Continue (mkNState (Js.push (res s) p) (S (segCount s)) (isAbsolute s))
  end.

(** [for (let i = ...; i <= l; i++)], with [n] passes left to run. *)
Fixpoint normalize_loop (allowUpstream : bool) (path : list string)
    (n : nat) (i : nat) (s : NState) : list string :=
  match n with
  | O => res s
  | S n' =>
      match normalize_body allowUpstream i (Js.get path i) s with
      | Return r => r
      | Continue s' => normalize_loop allowUpstream path n' (S i) s'
      end
  end.

Definition normalize (path : list string) (allowUpstream : bool) : list string :=
  normalize_loop allowUpstream path (S (length path)) 0 (mkNState [] 0 false).

(** The loop of [resolve], from the last argument to the first: [rargs]
    is what is left of the arguments, last one first. *)
Fixpoint resolve_loop (rargs : list (list string)) (resolvedPath : list string)
    (resolvedAbsolute : bool) : list string :=
  match rargs with
  | [] => resolvedPath
  | path :: rest =>
      if resolvedAbsolute then resolvedPath
      else if (length path =? 0)%nat then
        resolve_loop rest resolvedPath resolvedAbsolute
      else
        resolve_loop rest (path ++ resolvedPath)
          (Js.strict_eq (Js.get path 0) (Some ROOT_NAME))
  end.

Definition resolve (args : list (list string)) : list string :=
  let resolvedPath := resolve_loop (rev args) [] false in
  let resolvedPath := normalize resolvedPath true in
  if (length resolvedPath =? 0)%nat then ["."] else resolvedPath.

Definition toArray (path : string) : list string :=
  let arr := Js.split PATH_SEPERATOR_CHAR path in
  if Js.strict_eq (Js.at_last arr) (Some "") then Js.pop arr else arr.

Definition toString (path : list string) : string :=
  if Js.strict_eq (Js.get path 0) (Some ROOT_NAME) && (length path =? 1)%nat
  then PATH_SEPERATOR
  else Js.join PATH_SEPERATOR path.

End Path.


(* ================================================================== *)
(** * Awaited calls: state and exceptions *)
(* ================================================================== *)

(** What a rejected promise or a [throw] carries. *)
Inductive Exn :=
| DOMException (name : string)
| TypeError (msg : string)
| Error (msg : string).

Inductive Outcome (A : Type) :=
| Ok (a : A)
| Throw (e : Exn).
Arguments Ok {A} a.
Arguments Throw {A} e.

(** A computation over a state [S] that returns or throws. *)
Definition M (S A : Type) : Type := S -> Outcome A * S.

Definition ret {S A} (a : A) : M S A := fun s => (Ok a, s).

Definition throw {S A} (e : Exn) : M S A := fun s => (Throw e, s).

Definition bind {S A B} (m : M S A) (k : A -> M S B) : M S B :=
  fun s =>
    match m s with
    | (Ok a, s') => k a s'
    | (Throw e, s') => (Throw e, s')
    end.

Notation "x <- m ;; k" := (bind m (fun x => k))
  (at level 61, m at next level, right associativity).
Notation "m ;;; k" := (bind m (fun _ => k))
  (at level 61, right associativity).

(** [try { body } finally { fin }] *)
Definition try_finally {S A} (body : M S A) (fin : M S unit) : M S A :=
  fun s =>
    match body s with
    | (r, s1) =>
        match fin s1 with
        | (Ok _, s2) => (r, s2)
        | (Throw e, s2) => (Throw e, s2)
        end
    end.

(** [await Promise.all(xs.map(f))], the calls run in the order of [xs];
    the first rejection is the outcome. *)
Fixpoint mapM {S A B} (f : A -> M S B) (xs : list A) : M S (list B) :=
  match xs with
  | [] => ret []
  | x :: xs' => y <- f x ;; ys <- mapM f xs' ;; ret (y :: ys)
  end.

(* ================================================================== *)
(** * The File System Access API, as the navigator uses it *)
(* ================================================================== *)

(** A [FileSystemHandle] is a directory handle or a file handle. *)
Inductive AnyHandle (DirH FileH : Type) :=
| OfDir (d : DirH)
| OfFile (f : FileH).
Arguments OfDir {DirH FileH} d.
Arguments OfFile {DirH FileH} f.

(** [FileSystemCreateWritableOptions & {append?: boolean}] *)
Record WriteOptions := mkWriteOptions {
  append : option bool;
  keepExistingData : option bool
}.

Class FileSystemAPI (Store DirH FileH Blob Writable Chunk : Type) := {
  (** [dir.getDirectoryHandle(name, {create})] *)
  getDirectoryHandle : DirH -> string -> bool -> M Store DirH;
  (** [dir.getFileHandle(name, {create})] *)
  getFileHandle : DirH -> string -> bool -> M Store FileH;
  (** [a.isSameEntry(b)] *)
  isSameEntry : AnyHandle DirH FileH -> AnyHandle DirH FileH -> M Store bool;
  (** [Array.fromAsync(dir.entries())] *)
  entries : DirH -> M Store (list (string * AnyHandle DirH FileH));
  (** [root.resolve(handle)] *)
  resolveHandle : DirH -> AnyHandle DirH FileH -> M Store (option (list string));
  (** [file.getFile()] and its [size] *)
  getFileBlob : FileH -> M Store Blob;
  blobSize : Blob -> nat;
  (** [file.createWritable(options)] *)
  createWritable : FileH -> option WriteOptions -> M Store Writable;
  writableSeek : Writable -> nat -> M Store unit;
  writableWrite : Writable -> Chunk -> M Store unit;
  writableClose : Writable -> M Store unit;
  (** [blob.stream().pipeTo(writable)] *)
  pipeTo : Blob -> Writable -> M Store unit
}.

(* ================================================================== *)
(** * LocalFS.ts *)
(* ================================================================== *)

(** [string | string[]] *)
Inductive PathArg :=
| PStr (s : string)
| PArr (a : list string).

(** [string | string[] | H] for a handle type [H]. *)
Inductive PathOr (H : Type) :=
| IsPath (p : PathArg)
| IsHandle (h : H).
Arguments IsPath {H} p.
Arguments IsHandle {H} h.

(** [Array.isArray(path) ? path : toArray(path)] *)
Definition path_of (path : PathArg) : list string :=
  match path with
  | PArr a => a
  | PStr s => Path.toArray s
  end.

Definition resolvePath (cd : list string) (path : PathArg) : list string :=
  Path.resolve [cd; path_of path].

(** The [for] loop of [isChildOrEqual], with [n] passes left to run. *)
Fixpoint isChildOrEqual_loop (cd path : list string) (n i : nat) : bool :=
  match n with
  | O => true
  | S n' =>
      if negb (Js.strict_eq (Js.get path i) (Js.get cd i)) then false
      else isChildOrEqual_loop cd path n' (S i)
  end.

Definition isChildOrEqual (cd path : list string) : bool :=
  let lParent := length cd in
  if (length path <? lParent)%nat then false
  else isChildOrEqual_loop cd path lParent 0.

Section Navigator.

Context {Store DirH FileH Blob Writable Chunk : Type}.
Context {FS : FileSystemAPI Store DirH FileH Blob Writable Chunk}.

Record Current := mkCurrent {
  handle : DirH;
  path : list string
}.

Record LocalFS := mkLocalFS {
  rootHandle : DirH;
  current : Current
}.

Definition current_handle (fs : LocalFS) : DirH := handle (current fs).
Definition current_path (fs : LocalFS) : list string := path (current fs).

(** The navigator object together with the backend it talks to. *)
Record World := mkWorld {
  this : LocalFS;
  store : Store
}.

(** Methods of the navigator. *)
Definition N (A : Type) : Type := M World A.

(** An awaited backend call: [this] is left as it is. *)
Definition await {A} (m : M Store A) : N A :=
  fun w => let (r, s') := m (store w) in (r, mkWorld (this w) s').

Definition read_this : N LocalFS := fun w => (Ok (this w), w).

(** [this.current.handle = h] *)
Definition set_current_handle (h : DirH) : N unit :=
  fun w =>
    (Ok tt,
     mkWorld (mkLocalFS (rootHandle (this w)) (mkCurrent h (current_path (this w))))
       (store w)).

(** [this.current.path = p] *)
Definition set_current_path (p : list string) : N unit :=
  fun w =>
    (Ok tt,
     mkWorld (mkLocalFS (rootHandle (this w)) (mkCurrent (current_handle (this w)) p))
       (store w)).

Definition constructor (dirHandle : DirH) : LocalFS :=
  mkLocalFS dirHandle (mkCurrent dirHandle [Path.ROOT_NAME]).

(** [for (let i = ...; i < ...; i++) dir = await dir.getDirectoryHandle(absolutePath[i], {create})],
    with [n] passes left to run. *)
Fixpoint walk_loop (absolutePath : list string) (create : bool) (n i : nat)
    (dir : DirH) : M Store DirH :=
  match n with
  | O => ret dir
  | S n' =>
      dir' <- getDirectoryHandle dir (Js.to_string (Js.get absolutePath i)) create ;;
      walk_loop absolutePath create n' (S i) dir'
  end.

Definition getDir (path : PathArg) (create : bool) : N DirH :=
  fs <- read_this ;;
  let absolutePath := resolvePath (current_path fs) path in
  let isChild := isChildOrEqual (current_path fs) absolutePath in
  let dir := if isChild then current_handle fs else rootHandle fs in
  let i := if isChild then length (current_path fs) else 1 in
  let l := length absolutePath in
  await (walk_loop absolutePath create (l - i) i dir).

Definition getFile (path : PathArg) (create : bool) : N FileH :=
  fs <- read_this ;;
  let absolutePath := resolvePath (current_path fs) path in
  let isChild := isChildOrEqual (current_path fs) absolutePath in
  let dir := if isChild then current_handle fs else rootHandle fs in
  let i := if isChild then length (current_path fs) else 1 in
  let l := length absolutePath in
  dir <- await (walk_loop absolutePath create (l - 1 - i) i dir) ;;
  await (getFileHandle dir (Js.to_string (Js.at_last absolutePath)) create).

(** [path instanceof FileSystemDirectoryHandle ? path : await this.getDir(path, create)] *)
Definition dirOf (path : PathOr DirH) (create : bool) : N DirH :=
  match path with
  | IsHandle h => ret h
  | IsPath p => getDir p create
  end.

(** [path instanceof FileSystemFileHandle ? path : await this.getFile(path, create)] *)
Definition fileOf (path : PathOr FileH) (create : bool) : N FileH :=
  match path with
  | IsHandle h => ret h
  | IsPath p => getFile p create
  end.

Definition resolve (path : PathOr (AnyHandle DirH FileH)) : N string :=
  match path with
  | IsHandle h =>
      fs <- read_this ;;
      resolved <- await (resolveHandle (rootHandle fs) h) ;;
      match resolved with
      | None =>
          throw (Error "Could not resolve path of FileSystemHandle. It might not be a child of this root directory.")
      | Some resolved => ret (Path.toString (Path.ROOT_NAME :: resolved))
      end
  | IsPath p =>
      fs <- read_this ;;
      ret (Path.toString (resolvePath (current_path fs) p))
  end.

Definition cd (path : PathArg) : N DirH :=
  h <- getDir path false ;;
  set_current_handle h ;;;
  fs <- read_this ;;
  set_current_path (resolvePath (current_path fs) path) ;;;
  fs <- read_this ;;
  ret (current_handle fs).

Definition pwd : N string :=
  fs <- read_this ;;
  ret (Path.toString (current_path fs)).

(** [entries.filter((_, i) => e[i])] *)
Fixpoint filter_by {A} (xs : list A) (e : list bool) : list A :=
  match xs, e with
  | x :: xs', b :: e' => if b then x :: filter_by xs' e' else filter_by xs' e'
  | _, _ => []
  end.

(** The filter is a callback of the caller; it may call the backend. *)
Definition ls (path : PathOr DirH)
    (filter : option (string -> AnyHandle DirH FileH -> M Store bool))
    : N (list (string * AnyHandle DirH FileH)) :=
  dir <- dirOf path false ;;
  ents <- await (entries dir) ;;
  match filter with
  | Some f =>
      e <- await (mapM (fun nh => f (fst nh) (snd nh)) ents) ;;
      ret (filter_by ents e)
  | None => ret ents
  end.

(** [options?.append] as a condition. *)
Definition wants_append (options : option WriteOptions) : bool :=
  match options with
  | Some o => match append o with Some b => b | None => false end
  | None => false
  end.

Definition write (path : PathOr FileH) (content : Chunk)
    (options : option WriteOptions) : N unit :=
  fileHandle <- fileOf path true ;;
  let options :=
    match options with
    | Some o => if wants_append options then Some (mkWriteOptions (append o) (Some true))
                else options
    | None => None
    end in
  writable <- await (createWritable fileHandle options) ;;
  await (try_finally
           ((if wants_append options
             then blob <- getFileBlob fileHandle ;; writableSeek writable (blobSize blob)
             else ret tt) ;;;
            writableWrite writable content)
           (writableClose writable)).

Definition copyFileHelper (file to : FileH) : M Store unit :=
  blob <- getFileBlob file ;;
  w <- createWritable to None ;;
  pipeTo blob w.

Definition copyFile (path destination : PathOr FileH) : N unit :=
  file <- fileOf path false ;;
  to <- fileOf destination true ;;
  same <- await (isSameEntry (OfFile file) (OfFile to)) ;;
  if same then ret tt else await (copyFileHelper file to).

(** A call that may not come back: [None] when the recursion budget is
    used up. *)
Definition Partial (S A : Type) : Type := S -> option (Outcome A * S).

(** What [Promise.all] settles to once one more promise has settled: the
    first rejection wins. *)
Definition pool (acc r : Outcome unit) : Outcome unit :=
  match acc with
  | Throw e => Throw e
  | Ok _ => r
  end.

(** The promise that [copyDirHelper] pushes for one entry of [dir]. *)
Definition copy_entry (recur : DirH -> DirH -> DirH -> Partial Store unit)
    (to originalTo : DirH) (entry : string * AnyHandle DirH FileH)
    : Partial Store unit :=
  fun s =>
    match snd entry with
    | OfDir handle =>
        match isSameEntry (OfDir handle) (OfDir originalTo) s with
        | (Throw e, s1) => Some (Throw e, s1)
        | (Ok true, s1) => Some (Ok tt, s1)
        | (Ok false, s1) =>
            match getDirectoryHandle to (fst entry) true s1 with
            | (Throw e, s2) => Some (Throw e, s2)
            | (Ok dir, s2) => recur handle dir originalTo s2
            end
        end
    | OfFile handle =>
        Some ((file <- getFileHandle to (fst entry) true ;;
               copyFileHelper handle file) s)
    end.

(** The promises of all entries, run in the order of the enumeration;
    every one of them is run, also after a rejection. *)
Fixpoint copy_entries (recur : DirH -> DirH -> DirH -> Partial Store unit)
    (to originalTo : DirH) (ents : list (string * AnyHandle DirH FileH))
    (acc : Outcome unit) : Partial Store unit :=
  fun s =>
    match ents with
    | [] => Some (acc, s)
    | entry :: rest =>
        match copy_entry recur to originalTo entry s with
        | None => None
        | Some (r, s') => copy_entries recur to originalTo rest (pool acc r) s'
        end
    end.

(** [copyDirHelper]: the entries of [dir] are enumerated, then the
    promises pushed for them run one after the other, and the call
    settles as [Promise.all] does.  [fuel] bounds the depth of the
    recursion. *)
Fixpoint copyDirHelper (fuel : nat) (dir to originalTo : DirH)
    : Partial Store unit :=
  fun s =>
    match fuel with
    | O => None
    | S fuel' =>
        match entries dir s with
        | (Throw e, s1) => Some (Throw e, s1)
        | (Ok ents, s1) =>
            copy_entries (copyDirHelper fuel') to originalTo ents (Ok tt) s1
        end
    end.

Definition copyDir (fuel : nat) (path destination : PathOr DirH)
    : Partial World unit :=
  fun w =>
    match dirOf path false w with
    | (Throw e, w1) => Some (Throw e, w1)
    | (Ok dir, w1) =>
        match dirOf destination true w1 with
        | (Throw e, w2) => Some (Throw e, w2)
        | (Ok to, w2) =>
            match await (isSameEntry (OfDir dir) (OfDir to)) w2 with
            | (Throw e, w3) => Some (Throw e, w3)
            | (Ok true, w3) => Some (Ok tt, w3)
            | (Ok false, w3) =>
                match copyDirHelper fuel dir to to (store w3) with
                | None => None
                | Some (r, s') => Some (r, mkWorld (this w3) s')
                end
            end
        end
    end.

End Navigator.

Arguments LocalFS : clear implicits.
Arguments Current : clear implicits.
Arguments World : clear implicits.

(* ================================================================== *)
(** * An in-memory backend *)
(* ================================================================== *)

(** A directory tree held as a table from locations to nodes.  A handle
    is the location it was obtained for, a list of names below the top
    of the tree; two handles are the same entry when they are of one
    kind and hold one location. *)
Module Mem.

Inductive Node :=
| DirNode
| FileNode (content : string).

Definition Loc : Type := list string.

Record Stream := mkStream {
  target : Loc;
  buffer : string;
  position : nat;
  closed : bool
}.

Record Store := mkStore {
  nodes : list (Loc * Node);
  streams : list Stream
}.

Fixpoint loc_eqb (p q : Loc) : bool :=
  match p, q with
  | [], [] => true
  | x :: p', y :: q' => String.eqb x y && loc_eqb p' q'
  | _, _ => false
  end.

Fixpoint lookup (ns : list (Loc * Node)) (p : Loc) : option Node :=
  match ns with
  | [] => None
  | (q, n) :: rest => if loc_eqb q p then Some n else lookup rest p
  end.

(** Replaces the node at [p]. *)
Fixpoint replace (ns : list (Loc * Node)) (p : Loc) (n : Node) : list (Loc * Node) :=
  match ns with
  | [] => []
  | (q, m) :: rest =>
      if loc_eqb q p then (q, n) :: rest else (q, m) :: replace rest p n
  end.

(** [q = d ++ [name]] *)
Fixpoint child_name (d q : Loc) : option string :=
  match d, q with
  | [], [name] => Some name
  | x :: d', y :: q' => if String.eqb x y then child_name d' q' else None
  | _, _ => None
  end.

(** The entries of [d]: one for each listed location that is one name
    below [d], of the kind of the node found there. *)
Definition children (ns : list (Loc * Node)) (d : Loc)
    : list (string * AnyHandle Loc Loc) :=
  flat_map
    (fun qn =>
       match child_name d (fst qn), lookup ns (fst qn) with
       | Some name, Some DirNode => [(name, OfDir (fst qn))]
       | Some name, Some (FileNode _) => [(name, OfFile (fst qn))]
       | _, _ => []
       end)
    ns.

Fixpoint has_separator (s : string) : bool :=
  match s with
  | EmptyString => false
  | String c s' => Ascii.eqb c Path.PATH_SEPERATOR_CHAR || has_separator s'
  end.

Definition valid_name (name : string) : bool :=
  negb (String.eqb name "" || String.eqb name "." || String.eqb name ".."
        || has_separator name).

Definition not_found {A} : M Store A := throw (DOMException "NotFoundError").
Definition type_mismatch {A} : M Store A := throw (DOMException "TypeMismatchError").
Definition bad_name {A} : M Store A := throw (TypeError "Name is not allowed.").
Definition bad_stream {A} : M Store A := throw (TypeError "Cannot write to a closed stream.").

Definition add_node (p : Loc) (n : Node) : M Store unit :=
  fun s => (Ok tt, mkStore (nodes s ++ [(p, n)]) (streams s)).

Definition get_child (want_dir : bool) (d : Loc) (name : string) (create : bool)
    : M Store Loc :=
  fun s =>
    if negb (valid_name name) then bad_name s
    else
      match lookup (nodes s) d with
      | Some DirNode =>
          match lookup (nodes s) (d ++ [name]) with
          | Some DirNode => if want_dir then ret (d ++ [name]) s else type_mismatch s
          | Some (FileNode _) => if want_dir then type_mismatch s else ret (d ++ [name]) s
          | None =>
              if create then
                (add_node (d ++ [name]) (if want_dir then DirNode else FileNode "") ;;;
                 ret (d ++ [name])) s
              else not_found s
          end
      | _ => not_found s
      end.

Definition loc_of (h : AnyHandle Loc Loc) : Loc :=
  match h with
  | OfDir d => d
  | OfFile f => f
  end.

Definition same_entry (a b : AnyHandle Loc Loc) : bool :=
  match a, b with
  | OfDir x, OfDir y => loc_eqb x y
  | OfFile x, OfFile y => loc_eqb x y
  | _, _ => false
  end.

Definition list_entries (d : Loc) : M Store (list (string * AnyHandle Loc Loc)) :=
  fun s =>
    match lookup (nodes s) d with
    | Some DirNode => ret (children (nodes s) d) s
    | _ => not_found s
    end.

(** [q] without its prefix [p] *)
Fixpoint strip_prefix (p q : Loc) : option Loc :=
  match p, q with
  | [], _ => Some q
  | x :: p', y :: q' => if String.eqb x y then strip_prefix p' q' else None
  | _ :: _, [] => None
  end.

Definition read_file (f : Loc) : M Store string :=
  fun s =>
    match lookup (nodes s) f with
    | Some (FileNode c) => ret c s
    | _ => not_found s
    end.

Definition keeps_data (options : option WriteOptions) : bool :=
  match options with
  | Some o => match keepExistingData o with Some b => b | None => false end
  | None => false
  end.

Definition open_stream (f : Loc) (options : option WriteOptions) : M Store nat :=
  fun s =>
    match lookup (nodes s) f with
    | Some (FileNode c) =>
        (Ok (length (streams s)),
         mkStore (nodes s)
           (streams s ++ [mkStream f (if keeps_data options then c else "") 0 false]))
    | _ => not_found s
    end.

Fixpoint set_nth {A} (xs : list A) (i : nat) (x : A) : list A :=
  match xs, i with
  | [], _ => []
  | _ :: xs', O => x :: xs'
  | y :: xs', S i' => y :: set_nth xs' i' x
  end.

Definition with_stream (w : nat) (f : Stream -> Stream) : M Store unit :=
  fun s =>
    match nth_error (streams s) w with
    | Some st =>
        if closed st then bad_stream s
        else (Ok tt, mkStore (nodes s) (set_nth (streams s) w (f st)))
    | None => bad_stream s
    end.

Fixpoint zeros (n : nat) : string :=
  match n with
  | O => ""
  | S n' => String Ascii.zero (zeros n')
  end.

Fixpoint drop (n : nat) (s : string) : string :=
  match n, s with
  | O, _ => s
  | S n', String _ s' => drop n' s'
  | S _, EmptyString => ""
  end.

(** [buf] with [chunk] written over it from offset [pos] *)
Definition write_at (buf : string) (pos : nat) (chunk : string) : string :=
  (substring 0 pos buf ++ zeros (pos - String.length buf) ++ chunk
   ++ drop (pos + String.length chunk) buf)%string.

Definition seek_stream (w : nat) (pos : nat) : M Store unit :=
  with_stream w (fun st => mkStream (target st) (buffer st) pos false).

Definition write_stream (w : nat) (chunk : string) : M Store unit :=
  with_stream w (fun st =>
    mkStream (target st) (write_at (buffer st) (position st) chunk)
      (position st + String.length chunk) false).

Definition close_stream (w : nat) : M Store unit :=
  fun s =>
    match nth_error (streams s) w with
    | Some st =>
        if closed st then bad_stream s
        else
          match lookup (nodes s) (target st) with
          | Some (FileNode _) =>
              (Ok tt,
               mkStore (replace (nodes s) (target st) (FileNode (buffer st)))
                 (set_nth (streams s) w
                    (mkStream (target st) (buffer st) (position st) true)))
          | _ => not_found s
          end
    | None => bad_stream s
    end.

#[global] Instance api : FileSystemAPI Store Loc Loc string nat string := {
  getDirectoryHandle := get_child true;
  getFileHandle := get_child false;
  isSameEntry a b := ret (same_entry a b);
  entries := list_entries;
  resolveHandle root h := ret (strip_prefix root (loc_of h));
  getFileBlob := read_file;
  blobSize := String.length;
  createWritable := open_stream;
  writableSeek := seek_stream;
  writableWrite := write_stream;
  writableClose := close_stream;
  pipeTo blob w := write_stream w blob ;;; close_stream w
}.

(** A store with the directories [dirs] and the files [files], below an
    empty top directory. *)
Definition make (dirs : list Loc) (files : list (Loc * string)) : Store :=
  mkStore
    (([], DirNode) :: map (fun d => (d, DirNode)) dirs
     ++ map (fun fc => (fst fc, FileNode (snd fc))) files)
    [].

End Mem.

(* ================================================================== *)
(** * Definitions used to state the properties *)
(* ================================================================== *)

Module PathSpec.

Import Path.

(** The passes of [normalize] over the elements [rest], the first of
    them at index [i]; the pass at index [l] is left out. *)
Fixpoint scan_from (allowUpstream : bool) (i : nat) (rest : list string)
    (s : NState) : Flow :=
  match rest with
  | [] => Continue s
  | p :: rest' =>
      match normalize_body allowUpstream i (Some p) s with
      | Return r => Return r
      | Continue s' => scan_from allowUpstream (S i) rest' s'
      end
  end.

(** The locals of [normalize] once the elements of [pre] are consumed,
    or what was returned before that. *)
Definition scan (allowUpstream : bool) (pre : list string) : Flow :=
  scan_from allowUpstream 0 pre (mkNState [] 0 false).

Definition finish (f : Flow) : list string :=
  match f with
  | Continue s => res s
  | Return r => r
  end.

(** A name: neither empty nor a control segment. *)
Definition is_name (p : string) : bool :=
  negb (String.eqb p "" || String.eqb p "." || String.eqb p "..").

(** Names only. *)
Definition names (l : list string) : Prop := forallb is_name l = true.

(** Absolute: the first element is the root sentinel. *)
Definition is_absolute (path : list string) : bool :=
  Js.strict_eq (Js.get path 0) (Some ROOT_NAME).

(** Absolute and normalized: the root sentinel, then names only. *)
Definition is_normalized_absolute (path : list string) : bool :=
  match path with
  | [] => false
  | p :: rest => String.eqb p ROOT_NAME && forallb is_name rest
  end.

(** Upstream normalization of a relative sequence in the words of the
    specification: a count of accumulated [..] escapes and the names
    pushed after them. *)
Definition upstream_step (st : nat * list string) (p : string) : nat * list string :=
  if String.eqb p "" || String.eqb p "." then st
  else if String.eqb p ".." then
    match snd st with
    | [] => (S (fst st), [])
    | _ :: _ => (fst st, removelast (snd st))
    end
  else (fst st, snd st ++ [p]).

Definition upstream_spec (path : list string) : nat * list string :=
  fold_left upstream_step path (0, []).

End PathSpec.

(** [p] is a prefix of [q], element by element. *)
Fixpoint is_prefix (p q : list string) : bool :=
  match p, q with
  | [], _ => true
  | x :: p', y :: q' => String.eqb x y && is_prefix p' q'
  | _ :: _, [] => false
  end.

Section NavigatorSpec.

Context {Store DirH FileH Blob Writable Chunk : Type}.
Context {FS : FileSystemAPI Store DirH FileH Blob Writable Chunk}.

(** The directory reached from [dir] through the names [segments], one
    [getDirectoryHandle] per name. *)
Fixpoint walk (dir : DirH) (segments : list string) (create : bool)
    : M Store DirH :=
  match segments with
  | [] => ret dir
  | name :: rest =>
      dir' <- getDirectoryHandle dir name create ;;
      walk dir' rest create
  end.

(** The cached handle is the directory that the cached path leads to
    from the root handle. *)
Definition paired (fs : LocalFS DirH) (s : Store) : Prop :=
  walk (rootHandle fs) (skipn 1 (current_path fs)) false s
  = (Ok (current_handle fs), s).

(** The invariant of the navigator: the current path is absolute and
    normalized. *)
Definition nav_invariant (fs : LocalFS DirH) : Prop :=
  PathSpec.is_normalized_absolute (current_path fs) = true.

(** A method that leaves the navigator object as it is. *)
Definition keeps_this {A} (m : N A) : Prop :=
  forall w : World Store DirH, this (snd (m w)) = this w.

End NavigatorSpec.

Module MemSpec.

Import Mem.

(** The longest location of the table. *)
Definition depth (ns : list (Loc * Node)) : nat :=
  fold_right (fun qn acc => Nat.max (length (fst qn)) acc) 0 ns.

Definition keys (ns : list (Loc * Node)) : list Loc := map fst ns.

(** Outside the subtree of [D] no location is longer than [n]. *)
Definition bounded (D : Loc) (n : nat) (ns : list (Loc * Node)) : Prop :=
  forall p, In p (keys ns) -> is_prefix D p = false -> length p <= n.

(** From [ns] to [ns'] locations were added in the subtree of [D] only. *)
Definition grows (D : Loc) (ns ns' : list (Loc * Node)) : Prop :=
  forall p, In p (keys ns') -> In p (keys ns) \/ is_prefix D p = true.

(** There is a file at [p]. *)
Definition file_at (ns : list (Loc * Node)) (p : Loc) : Prop :=
  exists c, lookup ns p = Some (FileNode c).

(** [p] is where the copy of [dir] into [to] puts an entry of the tree
    [ns0] that lies below [dir] and outside the subtree of [D]. *)
Definition image (D dir to : Loc) (ns0 : list (Loc * Node)) (p : Loc) : Prop :=
  exists q, q <> [] /\ p = to ++ q /\ In (dir ++ q) (keys ns0)
            /\ is_prefix D (dir ++ q) = false.

(** From [ns] to [ns'] the only locations added are such images, and no
    file has appeared at [D]. *)
Definition copied (D dir to : Loc) (ns0 ns ns' : list (Loc * Node)) : Prop :=
  (forall p, In p (keys ns') -> In p (keys ns) \/ image D dir to ns0 p)
  /\ (file_at ns' D -> file_at ns D).

(** A call that adds no location and no file. *)
Definition quiet {A} (m : M Store A) : Prop :=
  forall s,
    keys (nodes (snd (m s))) = keys (nodes s)
    /\ forall p, file_at (nodes (snd (m s))) p -> file_at (nodes s) p.

(** What holds of the table whenever a promise of the copy into [D]
    starts: since the table was [ns0], locations were added inside [D]
    only, and there is no file at [D]. *)
Definition ready (D : Loc) (ns0 : list (Loc * Node)) (s : Store) : Prop :=
  grows D ns0 (nodes s) /\ ~ file_at (nodes s) D.

(** An entry [name] of [dir] as the enumeration yields it. *)
Definition listed (D : Loc) (ns0 : list (Loc * Node)) (dir : Loc)
    (name : string) (h : AnyHandle Loc Loc) : Prop :=
  loc_of h = dir ++ [name]
  /\ (is_prefix D (loc_of h) = false -> In (loc_of h) (keys ns0))
  /\ (forall f, h = OfFile f -> f <> D).

(** A navigator at the top of a store. *)
Definition world (s : Store) : World Store Loc := mkWorld (constructor []) s.

(** The world after a successful [cd]. *)
Definition after_cd (path : string) (w : World Store Loc) : World Store Loc :=
  snd (cd (PStr path) w).

(** The store of the examples:
    [/a], [/a/x], [/b], and the files [/a/a], [/a/x/f], [/a/g]. *)
Definition sample : Store :=
  make [["a"]; ["a"; "x"]; ["b"]]
       [(["a"; "a"], "inner"); (["a"; "x"; "f"], "data"); (["a"; "g"], "gg")].

End MemSpec.

(** ** Further definitions, for the properties beyond the claims *)

Module MoreSpec.

Import Path PathSpec.

(** Two states of [normalize] that the rest of the loop cannot tell
    apart: [segCount] is read only on relative input with
    [allowUpstream]. *)
Definition alike (allowUpstream : bool) (s s' : NState) : Prop :=
  res s = res s' /\ isAbsolute s = isAbsolute s'
  /\ (allowUpstream = true -> isAbsolute s = false -> segCount s = segCount s').

Definition alike_flow (allowUpstream : bool) (f f' : Flow) : Prop :=
  match f, f' with
  | Continue s, Continue s' => alike allowUpstream s s'
  | Return r, Return r' => r = r'
  | _, _ => False
  end.

(** An absolute state holds the sentinel. *)
Definition anchored (s : NState) : Prop :=
  isAbsolute s = true -> res s <> [].

(** The arguments of [resolve] that count: those from the last absolute
    one on, all of them when none is absolute. *)
Fixpoint effective (args : list (list string)) : list (list string) :=
  match args with
  | [] => []
  | a :: rest => if existsb is_absolute rest then effective rest else a :: rest
  end.

(** What [resolve] returns for the normalized sequence [r]. *)
Definition or_dot (r : list string) : list string :=
  match r with
  | [] => ["."]
  | _ :: _ => r
  end.

(** No separator in [s]. *)
Fixpoint sep_free (s : string) : bool :=
  match s with
  | EmptyString => true
  | String c s' => negb (Ascii.eqb c PATH_SEPERATOR_CHAR) && sep_free s'
  end.

(** The last character of [s] is the separator. *)
Fixpoint ends_with_sep (s : string) : bool :=
  match s with
  | EmptyString => false
  | String c EmptyString => Ascii.eqb c PATH_SEPERATOR_CHAR
  | String _ s' => ends_with_sep s'
  end.

(** The options that [write] hands to [createWritable]. *)
Definition passed_options (options : option WriteOptions) : option WriteOptions :=
  match options with
  | Some o =>
      if wants_append options then Some (mkWriteOptions (append o) (Some true))
      else options
  | None => None
  end.

(** No location of the table is longer than [n]. *)
Definition short (n : nat) (ns : list (Mem.Loc * Mem.Node)) : Prop :=
  forall p, In p (MemSpec.keys ns) -> length p <= n.

End MoreSpec.

(* ================================================================== *)
(** * Properties of the path library *)
(* ================================================================== *)

Module PathFacts.

Import Path PathSpec.

Arguments normalize_body : simpl never.

Ltac string_cases :=
  repeat match goal with
    | |- context [String.eqb ?a ?b] => destruct (String.eqb_spec a b); subst
    | H : context [String.eqb ?a ?b] |- _ => destruct (String.eqb_spec a b); subst
    end.

Lemma get_skipn {A} (l : list A) (i : nat) :
  i < length l -> exists x, Js.get l i = Some x /\ skipn i l = x :: skipn (S i) l.
Proof.
  revert i. induction l as [|a l IH]; intros i Hi; simpl in Hi; [lia|].
  destruct i as [|i].
  - exists a. split; reflexivity.
  - destruct (IH i) as [x [Hx Hs]]; [lia|].
    exists x. split; [exact Hx|]. simpl. exact Hs.
Qed.

Lemma get_beyond {A} (l : list A) (i : nat) :
  length l <= i -> Js.get l i = None.
Proof. intros H. apply nth_error_None. exact H. Qed.

(** The index loop of [normalize] is the scan of the list; the pass at
    index [l] reads [undefined] and changes nothing. *)
Lemma normalize_loop_scan (au : bool) (path : list string) :
  forall n i s,
    i <= length path -> n = S (length path) - i ->
    normalize_loop au path n i s = finish (scan_from au i (skipn i path) s).
Proof.
  induction n as [|n IH]; intros i s Hi Hn; [lia|].
  simpl. destruct (Nat.eq_dec i (length path)) as [->|Hne].
  - rewrite get_beyond by lia. simpl.
    rewrite skipn_all. simpl.
    replace n with 0 by lia. reflexivity.
  - destruct (get_skipn path i) as [x [Hx Hs]]; [lia|].
    rewrite Hx, Hs. simpl.
    destruct (normalize_body au i (Some x) s) as [s'|r]; [|reflexivity].
    apply IH; lia.
Qed.

Lemma normalize_scan (path : list string) (au : bool) :
  normalize path au = finish (scan au path).
Proof.
  unfold normalize, scan.
  rewrite (normalize_loop_scan au path (S (length path)) 0); [reflexivity|lia|lia].
Qed.

Lemma scan_from_app (au : bool) (pre post : list string) :
  forall i s,
    scan_from au i (pre ++ post) s =
    match scan_from au i pre s with
    | Return r => Return r
    | Continue s' => scan_from au (i + length pre) post s'
    end.
Proof.
  induction pre as [|p pre IH]; intros i s; simpl.
  - f_equal. lia.
  - destruct (normalize_body au i (Some p) s) as [s'|r]; [|reflexivity].
    rewrite IH. replace (S i + length pre) with (i + S (length pre)) by lia.
    reflexivity.
Qed.

Lemma length_removelast {A} (l : list A) :
  length (removelast l) = length l - 1.
Proof.
  rewrite removelast_firstn_len, length_firstn. lia.
Qed.

Lemma is_name_true (p : string) :
  is_name p = true <-> p <> "" /\ p <> "." /\ p <> "..".
Proof.
  unfold is_name. string_cases; simpl; split; intros; try discriminate;
    try tauto; repeat split; try congruence.
Qed.

Lemma names_app (l : list string) (p : string) :
  names l -> is_name p = true -> names (l ++ [p]).
Proof.
  unfold names. intros Hl Hp. rewrite forallb_app, Hl. simpl. rewrite Hp. reflexivity.
Qed.

Lemma names_removelast (l : list string) : names l -> names (removelast l).
Proof.
  unfold names. rewrite !forallb_forall. intros H x Hx. apply H.
  clear H. induction l as [|a l IH]; simpl in *; [contradiction|].
  destruct l; [contradiction|]. destruct Hx as [<-|Hx]; [left; reflexivity|].
  right. apply IH. exact Hx.
Qed.

(** ** Absolute input *)

(** Once the root sentinel is consumed the loop never returns early, the
    sentinel stays in front and only names follow it. *)
Lemma absolute_scan (au : bool) (rest : list string) :
  forall i out n,
    i <> 0 -> names out ->
    exists out' n',
      scan_from au i rest (mkNState (ROOT_NAME :: out) n true)
      = Continue (mkNState (ROOT_NAME :: out') n' true)
      /\ names out'.
Proof.
  induction rest as [|p rest IH]; intros i out n Hi Hout; simpl.
  - exists out, n. split; [reflexivity|exact Hout].
  - destruct i as [|i]; [lia|].
    unfold normalize_body. simpl.
    destruct (String.eqb_spec p ""); simpl; [apply IH; [lia|exact Hout]|].
    destruct (String.eqb_spec p "."); simpl; [apply IH; [lia|exact Hout]|].
    destruct (String.eqb_spec p "..").
    + destruct out as [|o out]; simpl.
      * apply IH; [lia|exact Hout].
      * apply (IH (S (S i)) (removelast (o :: out))); [lia|].
        apply names_removelast. exact Hout.
    + apply (IH (S (S i)) (out ++ [p])); [lia|].
      apply names_app; [exact Hout|]. apply is_name_true. auto.
Qed.

Lemma absolute_start (au : bool) (rest : list string) :
  scan au (ROOT_NAME :: rest) =
  scan_from au 1 rest (mkNState [ROOT_NAME] 0 true).
Proof. reflexivity. Qed.

Lemma normalized_scan (au : bool) (rest : list string) :
  forall i acc n,
    i <> 0 -> names rest ->
    finish (scan_from au i rest (mkNState acc n true)) = acc ++ rest.
Proof.
  induction rest as [|p rest IH]; intros i acc n Hi Hrest; simpl.
  - symmetry. apply app_nil_r.
  - unfold names in Hrest. simpl in Hrest.
    apply andb_true_iff in Hrest. destruct Hrest as [Hp Hrest].
    apply is_name_true in Hp. destruct Hp as [H1 [H2 H3]].
    destruct i as [|i]; [lia|].
    unfold normalize_body. simpl.
    destruct (String.eqb_spec p ""); [contradiction|].
    destruct (String.eqb_spec p "."); [contradiction|].
    destruct (String.eqb_spec p ".."); [contradiction|]. simpl.
    rewrite IH; [|lia|exact Hrest].
    unfold Js.push. rewrite <- app_assoc. reflexivity.
Qed.

(** ** Relative input *)

Lemma relative_head (pre rest : list string) :
  is_absolute (pre ++ rest) = false ->
  length pre = 0 -> hd_error rest <> Some ROOT_NAME.
Proof.
  intros Habs Hlen. destruct pre; [|discriminate]. simpl in Habs.
  destruct rest as [|p rest]; [discriminate|].
  unfold is_absolute in Habs. simpl in Habs.
  intros H. inversion H; subst. discriminate.
Qed.

Lemma relative_scan (au : bool) (rest : list string) :
  forall i s s',
    isAbsolute s = false ->
    (i = 0 -> hd_error rest <> Some ROOT_NAME) ->
    scan_from au i rest s = Continue s' ->
    isAbsolute s' = false.
Proof.
  induction rest as [|p rest IH]; intros i s s' Hs Hi H; simpl in H.
  - inversion H; subst. exact Hs.
  - destruct (normalize_body au i (Some p) s) as [s1|r] eqn:Hb; [|discriminate].
    apply (IH (S i) s1 s'); [|intros; lia|exact H].
    unfold normalize_body in Hb.
    destruct ((i =? 0)%nat && String.eqb p ROOT_NAME) eqn:H0.
    + apply andb_true_iff in H0. destruct H0 as [Hz Hp].
      apply Nat.eqb_eq in Hz. apply String.eqb_eq in Hp. subst.
      exfalso. apply (Hi eq_refl). reflexivity.
    + repeat match type of Hb with
        | (if ?c then _ else _) = _ => destruct c
        end; inversion Hb; subst; simpl; assumption.
Qed.

Lemma repeat_snoc {A} (x : A) (k : nat) : repeat x k ++ [x] = repeat x (S k).
Proof. symmetry. apply repeat_cons. Qed.

(** With [allowUpstream] the locals follow the escape count and the
    names of [upstream_step]. *)
Lemma upstream_scan (rest : list string) :
  forall i k reals,
    (i = 0 -> hd_error rest <> Some ROOT_NAME) ->
    names reals ->
    scan_from true i rest (mkNState (repeat ".." k ++ reals) (length reals) false)
    = Continue
        (mkNState
           (repeat ".." (fst (fold_left upstream_step rest (k, reals)))
            ++ snd (fold_left upstream_step rest (k, reals)))
           (length (snd (fold_left upstream_step rest (k, reals))))
           false)
    /\ names (snd (fold_left upstream_step rest (k, reals))).
Proof.
  induction rest as [|p rest IH]; intros i k reals Hi Hreals; simpl.
  - split; [reflexivity|exact Hreals].
  - assert (Hnext : S i = 0 -> hd_error rest <> Some ROOT_NAME) by (intros; lia).
    unfold normalize_body, upstream_step. simpl.
    destruct ((i =? 0)%nat && String.eqb p ROOT_NAME) eqn:H0.
    { apply andb_true_iff in H0. destruct H0 as [Hz Hp].
      apply Nat.eqb_eq in Hz. apply String.eqb_eq in Hp. subst.
      exfalso. apply (Hi eq_refl). reflexivity. }
    destruct (String.eqb_spec p ""); simpl; [apply IH; assumption|].
    destruct (String.eqb_spec p "."); simpl; [apply IH; assumption|].
    destruct (String.eqb_spec p "..").
    + destruct reals as [|r reals]; simpl.
      * rewrite app_nil_r. unfold Js.push. rewrite repeat_snoc.
        specialize (IH (S i) (S k) [] Hnext eq_refl).
        simpl in IH. rewrite app_nil_r in IH. exact IH.
      * specialize (IH (S i) k (removelast (r :: reals)) Hnext
                      (names_removelast _ Hreals)).
        unfold Js.pop.
        rewrite removelast_app by discriminate.
        replace (length reals - 0) with (length (removelast (r :: reals)))
          by (rewrite length_removelast; simpl; lia).
        exact IH.
    + specialize (IH (S i) k (reals ++ [p]) Hnext).
      unfold Js.push. rewrite <- app_assoc.
      replace (S (length reals)) with (length (reals ++ [p]))
        by (rewrite length_app; simpl; lia).
      apply IH. apply names_app; [exact Hreals|]. apply is_name_true. auto.
Qed.

(** The result on absolute input is absolute and normalized. *)
Lemma normalize_absolute_normalized (rest : list string) (au : bool) :
  is_normalized_absolute (normalize (ROOT_NAME :: rest) au) = true.
Proof.
  rewrite normalize_scan, absolute_start.
  destruct (absolute_scan au rest 1 [] 0) as [out [n [Hscan Hout]]];
    [lia|reflexivity|].
  rewrite Hscan. simpl. exact Hout.
Qed.

Lemma normalized_absolute_inv (p : list string) :
  is_normalized_absolute p = true ->
  exists rest, p = ROOT_NAME :: rest /\ names rest.
Proof.
  destruct p as [|r rest]; [discriminate|]. simpl.
  rewrite andb_true_iff, String.eqb_eq. intros [-> H].
  exists rest. split; [reflexivity|exact H].
Qed.

(** ** The claims on [normalize] and [toArray] *)

(** C2. For every sequence that starts with the root sentinel and for
    both values of [allowUpstream], the result of [normalize] starts
    with the root sentinel, has at least one element, and holds neither
    [.] nor [..]. *)
Theorem normalize_absolute_invariant (rest : list string) (allowUpstream : bool) :
  hd_error (normalize (ROOT_NAME :: rest) allowUpstream) = Some ROOT_NAME
  /\ 1 <= length (normalize (ROOT_NAME :: rest) allowUpstream)
  /\ ~ In "." (normalize (ROOT_NAME :: rest) allowUpstream)
  /\ ~ In ".." (normalize (ROOT_NAME :: rest) allowUpstream).
Proof.
  rewrite normalize_scan, absolute_start.
  destruct (absolute_scan allowUpstream rest 1 [] 0) as [out [n [Hscan Hout]]];
    [lia|reflexivity|].
  rewrite Hscan. simpl.
  unfold names in Hout. rewrite forallb_forall in Hout.
  repeat split; try lia.
  - intros [H|H]; [discriminate|]. apply Hout in H. discriminate.
  - intros [H|H]; [discriminate|]. apply Hout in H. discriminate.
Qed.

(** C3. [normalize] leaves an absolute, normalized sequence as it is,
    for both values of the upstream flag. *)
Theorem normalize_idempotent (p : list string) (flag : bool) :
  is_normalized_absolute p = true -> normalize p flag = p.
Proof.
  intros H. destruct p as [|r rest]; [discriminate|].
  simpl in H. apply andb_true_iff in H. destruct H as [Hr Hrest].
  apply String.eqb_eq in Hr. subst r.
  rewrite normalize_scan, absolute_start.
  rewrite normalized_scan; [reflexivity|lia|exact Hrest].
Qed.

Lemma normalize_idempotent_witness :
  is_normalized_absolute [""; "folder"; "file.txt"] = true
  /\ normalize [""; "folder"; "file.txt"] false = [""; "folder"; "file.txt"].
Proof.
  split; [reflexivity|].
  apply (normalize_idempotent [""; "folder"; "file.txt"] false). reflexivity.
Defined.

(** C4, as the specification states it, fails: the one empty segment
    that the split of the empty string produces is popped. *)
Lemma toArray_empty_not_sentinel : toArray "" <> [""].
Proof. discriminate. Qed.

(** C4, amended. [toArray] of the empty string is the empty sequence. *)
Theorem toArray_empty : toArray "" = [].
Proof. reflexivity. Qed.

(** C5. Without [allowUpstream], a relative sequence in which a [..] is
    reached while nothing is accumulated normalizes to the empty
    sequence; this is the case of [./folder/../../../../file]. *)
Theorem normalize_escape_fails :
  (forall (pre post : list string) (s : NState),
     is_absolute (pre ++ ".." :: post) = false ->
     scan false pre = Continue s ->
     res s = [] ->
     normalize (pre ++ ".." :: post) false = [])
  /\ normalize (toArray "./folder/../../../../file") false = [].
Proof.
  split; [|reflexivity].
  intros pre post s Hrel Hscan Hres.
  rewrite normalize_scan. unfold scan in *.
  rewrite scan_from_app, Hscan. simpl.
  assert (Habs : isAbsolute s = false).
  { destruct pre as [|p pre]; [inversion Hscan; reflexivity|].
    apply (relative_scan false (p :: pre) 0 (mkNState [] 0 false) s);
      [reflexivity| |exact Hscan].
    intros _ H. inversion H; subst. discriminate. }
  unfold normalize_body.
  replace ((length pre =? 0)%nat && String.eqb ".." ROOT_NAME) with false
    by (rewrite andb_false_r; reflexivity).
  simpl. rewrite Habs, Hres. reflexivity.
Qed.

Lemma normalize_escape_fails_witness :
  is_absolute (["folder"; ".."] ++ ".." :: ["file"]) = false
  /\ scan false ["folder"; ".."] = Continue (mkNState [] 1 false)
  /\ normalize (["folder"; ".."] ++ ".." :: ["file"]) false = [].
Proof.
  split; [reflexivity|]. split; [reflexivity|].
  apply (proj1 normalize_escape_fails ["folder"; ".."] ["file"]
           (mkNState [] 1 false)); reflexivity.
Defined.

(** C6. With [allowUpstream], on a relative sequence a [..] removes the
    last name pushed so far when there is one and is appended otherwise,
    so that the result is the accumulated [..] segments followed by the
    names that are left; [./folder/../../../../file] gives
    [../../../file]. *)
Theorem normalize_upstream :
  (forall path : list string,
     is_absolute path = false ->
     normalize path true
     = repeat ".." (fst (upstream_spec path)) ++ snd (upstream_spec path)
     /\ forallb is_name (snd (upstream_spec path)) = true)
  /\ normalize (toArray "./folder/../../../../file") true
     = toArray "../../../file".
Proof.
  split; [|reflexivity].
  intros path Hrel. rewrite normalize_scan. unfold scan, upstream_spec.
  destruct (upstream_scan path 0 0 []) as [Hscan Hnames].
  - intros _. apply (relative_head [] path Hrel eq_refl).
  - reflexivity.
  - simpl in Hscan. rewrite Hscan. split; [reflexivity|exact Hnames].
Qed.

Lemma normalize_upstream_witness :
  is_absolute [".."; "a"; "b"; ".."; ".."; ".."; "c"] = false
  /\ upstream_spec [".."; "a"; "b"; ".."; ".."; ".."; "c"] = (2, ["c"])
  /\ normalize [".."; "a"; "b"; ".."; ".."; ".."; "c"] true = [".."; ".."; "c"].
Proof.
  split; [reflexivity|]. split; [reflexivity|].
  apply (proj1 (proj1 normalize_upstream [".."; "a"; "b"; ".."; ".."; ".."; "c"]
                  eq_refl)).
Defined.

(** ** The examples of the documentation *)

Example toArray_doc :
  toArray "/folder/folder2/../file" = [""; "folder"; "folder2"; ".."; "file"].
Proof. reflexivity. Qed.

Example toArray_root : toArray "/" = [""].
Proof. reflexivity. Qed.

Example toArray_trailing : toArray "folder/sub/" = ["folder"; "sub"].
Proof. reflexivity. Qed.

Example resolve_doc :
  resolve [toArray "/folder/subfolder"; toArray "../subfolder2/project"]
  = toArray "/folder/subfolder2/project".
Proof. reflexivity. Qed.

Example resolve_above_root : toString (resolve [toArray "/"; toArray ".."]) = "/".
Proof. reflexivity. Qed.

Example resolve_nothing : resolve [[]; []] = ["."].
Proof. reflexivity. Qed.

Example normalize_lone_escape :
  normalize [".."] false = [] /\ normalize [".."] true = [".."].
Proof. split; reflexivity. Qed.

End PathFacts.

(* ================================================================== *)
(** * Properties of the navigator *)
(* ================================================================== *)

Lemma is_prefix_app (p q : list string) :
  is_prefix p q = true <-> exists suffix, q = p ++ suffix.
Proof.
  revert q. induction p as [|x p IH]; intros q; simpl.
  - split; [intros _; exists q; reflexivity|reflexivity].
  - destruct q as [|y q].
    + split; [discriminate|intros [sfx H]; discriminate].
    + rewrite andb_true_iff, String.eqb_eq, IH. split.
      * intros [-> [sfx ->]]. exists sfx. reflexivity.
      * intros [sfx H]. inversion H; subst. split; [reflexivity|exists sfx; reflexivity].
Qed.

Lemma is_prefix_length (p q : list string) :
  is_prefix p q = true -> length p <= length q.
Proof.
  intros H. apply is_prefix_app in H. destruct H as [sfx ->].
  rewrite length_app. lia.
Qed.

Lemma isChildOrEqual_loop_is_prefix (cd path : list string) :
  forall n i,
    i + n = length cd -> length cd <= length path ->
    isChildOrEqual_loop cd path n i = is_prefix (skipn i cd) (skipn i path).
Proof.
  induction n as [|n IH]; intros i Hn Hlen; simpl.
  - rewrite skipn_all2 by lia. reflexivity.
  - destruct (PathFacts.get_skipn cd i) as [x [Hx Hsx]]; [lia|].
    destruct (PathFacts.get_skipn path i) as [y [Hy Hsy]]; [lia|].
    rewrite Hx, Hy, Hsx, Hsy. simpl.
    rewrite (String.eqb_sym x y).
    destruct (String.eqb y x); simpl; [|reflexivity].
    apply IH; lia.
Qed.

(** The index loop of [isChildOrEqual] is the element-wise prefix test. *)
Lemma isChildOrEqual_is_prefix (cd path : list string) :
  isChildOrEqual cd path = is_prefix cd path.
Proof.
  unfold isChildOrEqual.
  destruct (Nat.ltb_spec (length path) (length cd)) as [Hlt|Hge].
  - destruct (is_prefix cd path) eqn:H; [|reflexivity].
    apply is_prefix_length in H. lia.
  - apply (isChildOrEqual_loop_is_prefix cd path (length cd) 0); lia.
Qed.

(** ** Resolution against the current path *)

(** What [resolve] hands to [normalize] when the first argument is
    absolute starts with the root sentinel. *)
Lemma resolve_loop_absolute (rest arg : list string) :
  exists x,
    Path.resolve_loop (rev [Path.ROOT_NAME :: rest; arg]) [] false
    = Path.ROOT_NAME :: x.
Proof.
  simpl rev. destruct arg as [|a arg]; simpl.
  - eexists. reflexivity.
  - destruct (String.eqb_spec a Path.ROOT_NAME) as [->|Hne]; eexists; reflexivity.
Qed.

Lemma resolvePath_normalized (cur : list string) (path : PathArg) :
  PathSpec.is_normalized_absolute cur = true ->
  Path.normalize (Path.resolve_loop (rev [cur; path_of path]) [] false) true <> []
  /\ resolvePath cur path
     = Path.normalize (Path.resolve_loop (rev [cur; path_of path]) [] false) true
  /\ PathSpec.is_normalized_absolute (resolvePath cur path) = true.
Proof.
  intros Hcur.
  destruct (PathFacts.normalized_absolute_inv cur Hcur) as [rest [-> _]].
  unfold resolvePath, Path.resolve.
  destruct (resolve_loop_absolute rest (path_of path)) as [x ->].
  pose proof (PathFacts.normalize_absolute_normalized x true) as Hn.
  destruct (Path.normalize (Path.ROOT_NAME :: x) true) as [|r out] eqn:E;
    [discriminate|].
  simpl. repeat split; [discriminate|exact Hn].
Qed.

Section NavigatorFacts.

Context {Store DirH FileH Blob Writable Chunk : Type}.
Context {FS : FileSystemAPI Store DirH FileH Blob Writable Chunk}.

Lemma bind_assoc {S A B C} (m : M S A) (f : A -> M S B) (g : B -> M S C) (s : S) :
  (y <- (x <- m ;; f x) ;; g y) s = (x <- m ;; y <- f x ;; g y) s.
Proof.
  unfold bind. destruct (m s) as [[a|e] s']; reflexivity.
Qed.

(** The index loop of the walk visits the [n] names from index [i] on. *)
Lemma walk_loop_walk (absolutePath : list string) (create : bool) :
  forall n i dir (s : Store),
    i + n <= length absolutePath ->
    walk_loop absolutePath create n i dir s
    = walk dir (firstn n (skipn i absolutePath)) create s.
Proof.
  induction n as [|n IH]; intros i dir s Hn; simpl; [reflexivity|].
  destruct (PathFacts.get_skipn absolutePath i) as [x [Hx Hsx]]; [lia|].
  rewrite Hx, Hsx. simpl. unfold bind.
  destruct (getDirectoryHandle dir x create s) as [[d|e] s']; [|reflexivity].
  apply IH. lia.
Qed.

Lemma walk_loop_suffix (absolutePath : list string) (create : bool)
    (i : nat) (dir : DirH) (s : Store) :
  walk_loop absolutePath create (length absolutePath - i) i dir s
  = walk dir (skipn i absolutePath) create s.
Proof.
  destruct (Nat.le_gt_cases i (length absolutePath)) as [Hle|Hgt].
  - rewrite walk_loop_walk by lia.
    rewrite firstn_all2; [reflexivity|]. rewrite length_skipn. lia.
  - replace (length absolutePath - i) with 0 by lia.
    rewrite skipn_all2 by lia. reflexivity.
Qed.

Lemma walk_app (create : bool) (a b : list string) :
  forall (dir : DirH) (s : Store),
    walk dir (a ++ b) create s
    = (d <- walk dir a create ;; walk d b create) s.
Proof.
  induction a as [|x a IH]; intros dir s; simpl; [reflexivity|].
  rewrite bind_assoc. unfold bind at 1 2.
  destruct (getDirectoryHandle dir x create s) as [[d|e] s']; [|reflexivity].
  apply IH.
Qed.

(** [getDir], with the two index loops replaced by what they compute. *)
Lemma getDir_unfold (path : PathArg) (create : bool) (w : World Store DirH) :
  getDir path create w =
  let cur := current_path (this w) in
  let target := resolvePath cur path in
  if is_prefix cur target
  then await (walk (current_handle (this w)) (skipn (length cur) target) create) w
  else await (walk (rootHandle (this w)) (skipn 1 target) create) w.
Proof.
  unfold getDir, bind, read_this, await. simpl.
  rewrite isChildOrEqual_is_prefix.
  destruct (is_prefix (current_path (this w))
              (resolvePath (current_path (this w)) path));
    rewrite walk_loop_suffix; reflexivity.
Qed.

(** C1. [getDir] resolves its argument against the current path; for a
    navigator whose current path is absolute and normalized the target
    is so too.  When the current path is a prefix of the target, the
    walk starts at the cached handle and goes through the names after
    the prefix, those from index [current.path.length] on; otherwise it
    starts at the root handle and goes through the names from index 1
    on. *)
Theorem getDir_walk (w : World Store DirH) (path : PathArg) (create : bool) :
  (nav_invariant (this w) ->
   PathSpec.is_normalized_absolute (resolvePath (current_path (this w)) path) = true)
  /\ (forall suffix : list string,
        resolvePath (current_path (this w)) path = current_path (this w) ++ suffix ->
        suffix = skipn (length (current_path (this w)))
                   (resolvePath (current_path (this w)) path)
        /\ getDir path create w
           = await (walk (current_handle (this w)) suffix create) w)
  /\ ((forall suffix : list string,
         resolvePath (current_path (this w)) path <> current_path (this w) ++ suffix) ->
      getDir path create w
      = await (walk (rootHandle (this w))
                 (skipn 1 (resolvePath (current_path (this w)) path)) create) w).
Proof.
  split; [|split].
  - intros Hinv. apply resolvePath_normalized. exact Hinv.
  - intros suffix Heq.
    assert (Hs : suffix = skipn (length (current_path (this w)))
                            (resolvePath (current_path (this w)) path)).
    { rewrite Heq, skipn_app, skipn_all, Nat.sub_diag. reflexivity. }
    split; [exact Hs|].
    rewrite getDir_unfold. cbv zeta.
    replace (is_prefix (current_path (this w))
               (resolvePath (current_path (this w)) path)) with true
      by (symmetry; apply is_prefix_app; exists suffix; exact Heq).
    rewrite <- Hs. reflexivity.
  - intros Hno. rewrite getDir_unfold. cbv zeta.
    destruct (is_prefix (current_path (this w))
                (resolvePath (current_path (this w)) path)) eqn:Hp; [|reflexivity].
    apply is_prefix_app in Hp. destruct Hp as [sfx Hp].
    exfalso. exact (Hno sfx Hp).
Qed.

Lemma walk_loop_prefix (absolutePath : list string) (create : bool)
    (n i : nat) (dir : DirH) (s : Store) :
  n = 0 \/ i + n <= length absolutePath ->
  walk_loop absolutePath create n i dir s
  = walk dir (firstn n (skipn i absolutePath)) create s.
Proof.
  intros [->|H]; [reflexivity|]. apply walk_loop_walk. exact H.
Qed.

(** [getFile], with the two index loops replaced by what they compute. *)
Lemma getFile_unfold (path : PathArg) (create : bool) (w : World Store DirH) :
  getFile path create w =
  let cur := current_path (this w) in
  let target := resolvePath cur path in
  let leaf := Js.to_string (Js.at_last target) in
  if is_prefix cur target
  then (dir <- await (walk (current_handle (this w))
                        (firstn (length target - 1 - length cur)
                           (skipn (length cur) target)) create) ;;
        await (getFileHandle dir leaf create)) w
  else (dir <- await (walk (rootHandle (this w))
                        (firstn (length target - 1 - 1) (skipn 1 target)) create) ;;
        await (getFileHandle dir leaf create)) w.
Proof.
  unfold getFile. unfold bind at 1. unfold read_this at 1.
  rewrite isChildOrEqual_is_prefix. cbv zeta.
  destruct (is_prefix (current_path (this w))
              (resolvePath (current_path (this w)) path)) eqn:Hp.
  - apply is_prefix_length in Hp.
    unfold bind, await. rewrite walk_loop_prefix by lia. reflexivity.
  - unfold bind, await. rewrite walk_loop_prefix by lia. reflexivity.
Qed.

(** When the target is the current directory itself, [getFile] asks the
    cached handle of that directory for its own name. *)
Lemma getFile_at_current (path : PathArg) (create : bool) (w : World Store DirH) :
  resolvePath (current_path (this w)) path = current_path (this w) ->
  getFile path create w
  = await (getFileHandle (current_handle (this w))
             (Js.to_string (Js.at_last (current_path (this w)))) create) w.
Proof.
  intros Heq. rewrite getFile_unfold. cbv zeta. rewrite Heq.
  replace (is_prefix (current_path (this w)) (current_path (this w))) with true
    by (symmetry; apply is_prefix_app; exists []; symmetry; apply app_nil_r).
  replace (length (current_path (this w)) - 1 - length (current_path (this w)))
    with 0 by lia.
  reflexivity.
Qed.

(** Below the current directory, and on a restart from the root,
    [getFile] walks to the parent and asks it for the last name. *)
Lemma getFile_below_current (path : PathArg) (create : bool)
    (w : World Store DirH) (mid : list string) (leaf : string) :
  resolvePath (current_path (this w)) path = current_path (this w) ++ mid ++ [leaf] ->
  getFile path create w
  = (dir <- await (walk (current_handle (this w)) mid create) ;;
     await (getFileHandle dir leaf create)) w.
Proof.
  intros Heq. rewrite getFile_unfold. cbv zeta. rewrite Heq.
  replace (is_prefix _ _) with true
    by (symmetry; apply is_prefix_app; exists (mid ++ [leaf]); reflexivity).
  rewrite skipn_app, skipn_all, Nat.sub_diag. simpl skipn.
  rewrite !length_app. simpl length. rewrite app_nil_l.
  replace (length (current_path (this w)) + (length mid + 1) - 1
           - length (current_path (this w))) with (length mid + 0) by lia.
  rewrite firstn_app_2. simpl firstn. rewrite app_nil_r.
  replace (Js.at_last (current_path (this w) ++ mid ++ [leaf])) with (Some leaf);
    [reflexivity|].
  rewrite app_assoc. unfold Js.at_last.
  destruct ((current_path (this w) ++ mid) ++ [leaf]) eqn:E.
  - destruct (current_path (this w) ++ mid); discriminate.
  - rewrite <- E. rewrite length_app. simpl.
    rewrite nth_error_app2 by lia.
    replace (length (current_path (this w) ++ mid) + 1 - 1
             - length (current_path (this w) ++ mid)) with 0 by lia.
    reflexivity.
Qed.

Lemma getFile_from_root (path : PathArg) (create : bool)
    (w : World Store DirH) (r : string) (mid : list string) (leaf : string) :
  is_prefix (current_path (this w)) (resolvePath (current_path (this w)) path) = false ->
  resolvePath (current_path (this w)) path = r :: mid ++ [leaf] ->
  getFile path create w
  = (dir <- await (walk (rootHandle (this w)) mid create) ;;
     await (getFileHandle dir leaf create)) w.
Proof.
  intros Hp Heq. rewrite getFile_unfold. cbv zeta. rewrite Hp, Heq.
  simpl skipn. simpl length. rewrite length_app. simpl length.
  replace (S (length mid + 1) - 1 - 1) with (length mid + 0) by lia.
  rewrite firstn_app_2. simpl firstn. rewrite app_nil_r.
  replace (Js.at_last (r :: mid ++ [leaf])) with (Some leaf); [reflexivity|].
  change (r :: mid ++ [leaf]) with ((r :: mid) ++ [leaf]).
  unfold Js.at_last.
  destruct ((r :: mid) ++ [leaf]) eqn:E; [discriminate|].
  rewrite <- E. rewrite length_app. simpl length.
  rewrite nth_error_app2 by (simpl; lia).
  replace (S (length mid) + 1 - 1 - length (r :: mid)) with 0 by (simpl; lia).
  reflexivity.
Qed.

(** ** Methods that leave the navigator object alone *)

Lemma keeps_this_ret {A} (a : A) : keeps_this (Store:=Store) (DirH:=DirH) (ret a).
Proof. intros w. reflexivity. Qed.

Lemma keeps_this_throw {A} (e : Exn) :
  keeps_this (Store:=Store) (DirH:=DirH) (A:=A) (throw e).
Proof. intros w. reflexivity. Qed.

Lemma keeps_this_read : keeps_this (Store:=Store) (DirH:=DirH) read_this.
Proof. intros w. reflexivity. Qed.

Lemma keeps_this_await {A} (m : M Store A) :
  keeps_this (DirH:=DirH) (await m).
Proof. intros w. unfold await. destruct (m (store w)). reflexivity. Qed.

Lemma keeps_this_bind {A B} (m : N A) (k : A -> N B) :
  keeps_this (Store:=Store) (DirH:=DirH) m ->
  (forall a, keeps_this (k a)) ->
  keeps_this (x <- m ;; k x).
Proof.
  intros Hm Hk w. unfold bind. specialize (Hm w).
  destruct (m w) as [[a|e] w']; simpl in *; [|exact Hm].
  rewrite Hk. exact Hm.
Qed.

Ltac keeps :=
  repeat first
    [ apply keeps_this_ret | apply keeps_this_throw | apply keeps_this_read
    | apply keeps_this_await | apply keeps_this_bind
    | match goal with |- forall _, _ => intro end
    | match goal with |- keeps_this (match ?x with _ => _ end) => destruct x end
    | match goal with |- keeps_this (if ?x then _ else _) => destruct x end ].

Lemma getDir_keeps_this (path : PathArg) (create : bool) :
  keeps_this (Store:=Store) (DirH:=DirH) (getDir path create).
Proof. unfold getDir. keeps. Qed.

Lemma getFile_keeps_this (path : PathArg) (create : bool) :
  keeps_this (Store:=Store) (DirH:=DirH) (getFile path create).
Proof. unfold getFile. keeps. Qed.

Lemma resolve_keeps_this (path : PathOr (AnyHandle DirH FileH)) :
  keeps_this (Store:=Store) (DirH:=DirH) (resolve path).
Proof. unfold resolve. keeps. Qed.

Lemma pwd_keeps_this : keeps_this (Store:=Store) (DirH:=DirH) pwd.
Proof. unfold pwd. keeps. Qed.

Lemma dirOf_keeps_this (path : PathOr DirH) (create : bool) :
  keeps_this (Store:=Store) (DirH:=DirH) (dirOf path create).
Proof. destruct path; [apply getDir_keeps_this|apply keeps_this_ret]. Qed.

Lemma fileOf_keeps_this (path : PathOr FileH) (create : bool) :
  keeps_this (Store:=Store) (DirH:=DirH) (fileOf path create).
Proof. destruct path; [apply getFile_keeps_this|apply keeps_this_ret]. Qed.

Lemma ls_keeps_this (path : PathOr DirH)
    (filter : option (string -> AnyHandle DirH FileH -> M Store bool)) :
  keeps_this (Store:=Store) (DirH:=DirH) (ls path filter).
Proof.
  unfold ls. apply keeps_this_bind; [apply dirOf_keeps_this|keeps].
Qed.

Lemma write_keeps_this (path : PathOr FileH) (content : Chunk)
    (options : option WriteOptions) :
  keeps_this (Store:=Store) (DirH:=DirH) (write path content options).
Proof.
  unfold write. apply keeps_this_bind; [apply fileOf_keeps_this|keeps].
Qed.

Lemma copyFile_keeps_this (path destination : PathOr FileH) :
  keeps_this (Store:=Store) (DirH:=DirH) (copyFile path destination).
Proof.
  unfold copyFile. apply keeps_this_bind; [apply fileOf_keeps_this|].
  intros file. apply keeps_this_bind; [apply fileOf_keeps_this|keeps].
Qed.

Lemma copyDir_keeps_this (fuel : nat) (path destination : PathOr DirH)
    (w w' : World Store DirH) (r : Outcome unit) :
  copyDir fuel path destination w = Some (r, w') -> this w' = this w.
Proof.
  unfold copyDir. intros H.
  pose proof (dirOf_keeps_this path false w) as H1.
  destruct (dirOf path false w) as [[dir|e] w1]; simpl in H1;
    [|inversion H; subst; exact H1].
  pose proof (dirOf_keeps_this destination true w1) as H2.
  destruct (dirOf destination true w1) as [[to|e] w2]; simpl in H2;
    [|inversion H; subst; congruence].
  pose proof (keeps_this_await (isSameEntry (OfDir dir) (OfDir to)) w2) as H3.
  destruct (await (isSameEntry (OfDir dir) (OfDir to)) w2) as [[[|]|e] w3];
    simpl in H3; try (inversion H; subst; congruence).
  destruct (copyDirHelper fuel dir to to (store w3)) as [[r' s']|]; [|discriminate].
  inversion H; subst. simpl. congruence.
Qed.

(** ** Changing the directory *)

Lemma cd_unfold (path : PathArg) (w : World Store DirH) :
  cd path w =
  match getDir path false w with
  | (Ok h, w') =>
      (Ok h,
       mkWorld
         (mkLocalFS (rootHandle (this w'))
            (mkCurrent h (resolvePath (current_path (this w')) path)))
         (store w'))
  | (Throw e, w') => (Throw e, w')
  end.
Proof.
  unfold cd, bind. destruct (getDir path false w) as [[h|e] w']; reflexivity.
Qed.

Lemma walk_readonly :
  (forall (d : DirH) (name : string) (s : Store),
     snd (getDirectoryHandle d name false s) = s) ->
  forall (segments : list string) (d : DirH) (s : Store),
    snd (walk d segments false s) = s.
Proof.
  intros Hro. induction segments as [|x segments IH]; intros d s; simpl;
    [reflexivity|].
  unfold bind. specialize (Hro d x s).
  destruct (getDirectoryHandle d x false s) as [[d'|e] s']; simpl in Hro; subst;
    [apply IH|reflexivity].
Qed.

(** C8. [cd] changes the current directory all at once.  When the walk
    fails, [cd] fails with it and the navigator is as before.  When the
    walk succeeds, the handle becomes the directory that was reached and
    the path becomes the resolution of the argument against the previous
    path.  On a backend where a lookup changes nothing, a handle that is
    the directory of the current path stays so. *)
Theorem cd_atomic (w : World Store DirH) (path : PathArg) :
  (forall e w',
     getDir path false w = (Throw e, w') ->
     cd path w = (Throw e, w') /\ this w' = this w)
  /\ (forall h w',
        getDir path false w = (Ok h, w') ->
        cd path w
        = (Ok h,
           mkWorld
             (mkLocalFS (rootHandle (this w))
                (mkCurrent h (resolvePath (current_path (this w)) path)))
             (store w')))
  /\ ((forall (d : DirH) (name : string) (s : Store),
         snd (getDirectoryHandle d name false s) = s) ->
      nav_invariant (this w) ->
      paired (this w) (store w) ->
      forall h w', cd path w = (Ok h, w') -> paired (this w') (store w')).
Proof.
  pose proof (getDir_keeps_this path false w) as Hthis.
  split; [|split].
  - intros e w' H. rewrite cd_unfold, H. rewrite H in Hthis.
    split; [reflexivity|exact Hthis].
  - intros h w' H. rewrite cd_unfold, H. rewrite H in Hthis. simpl in Hthis.
    rewrite Hthis. reflexivity.
  - intros Hro Hinv Hpair h w' Hcd.
    rewrite cd_unfold in Hcd.
    destruct (getDir path false w) as [[h'|e] w1] eqn:Hget; [|discriminate].
    simpl in Hthis. inversion Hcd; subst h' w'. clear Hcd.
    unfold paired. simpl. unfold current_path at 1, current_handle. simpl.
    rewrite Hthis. rewrite getDir_unfold in Hget. cbv zeta in Hget.
    unfold nav_invariant in Hinv.
    destruct (PathFacts.normalized_absolute_inv _ Hinv) as [rest [Hcur _]].
    unfold paired in Hpair. rewrite Hcur in Hpair. simpl skipn in Hpair.
    destruct (is_prefix (current_path (this w))
                (resolvePath (current_path (this w)) path)) eqn:Hp.
    + apply is_prefix_app in Hp. destruct Hp as [sfx Hp].
      rewrite Hp in Hget |- *.
      rewrite skipn_app, skipn_all, Nat.sub_diag in Hget. simpl in Hget.
      unfold await in Hget.
      pose proof (walk_readonly Hro sfx (current_handle (this w)) (store w)) as Hs.
      destruct (walk (current_handle (this w)) sfx false (store w)) as [r s1] eqn:Hw.
      simpl in Hs. inversion Hget; subst. simpl.
      rewrite Hcur. simpl. rewrite walk_app. unfold bind.
      rewrite Hpair. exact Hw.
    + unfold await in Hget.
      pose proof (walk_readonly Hro
                    (skipn 1 (resolvePath (current_path (this w)) path))
                    (rootHandle (this w)) (store w)) as Hs.
      destruct (walk (rootHandle (this w))
                  (skipn 1 (resolvePath (current_path (this w)) path)) false
                  (store w)) as [r s1] eqn:Hw.
      simpl in Hs. inversion Hget; subst. simpl. exact Hw.
Qed.

(** C10. The current path of a navigator is absolute and normalized:
    this holds for a new navigator and [cd], the one method that assigns
    the path, keeps it, because the resolution of any argument against
    such a path is again absolute and normalized and [resolve] never
    falls back to [.] for it; every other method leaves the navigator
    object as it is. *)
Theorem navigator_invariant :
  (forall dirHandle : DirH, nav_invariant (constructor dirHandle))
  /\ (forall (w : World Store DirH) (path : PathArg),
        nav_invariant (this w) ->
        Path.normalize
          (Path.resolve_loop (rev [current_path (this w); path_of path]) [] false)
          true <> []
        /\ PathSpec.is_normalized_absolute
             (resolvePath (current_path (this w)) path) = true
        /\ nav_invariant (this (snd (cd path w))))
  /\ (forall path create, keeps_this (Store:=Store) (getDir path create))
  /\ (forall path create, keeps_this (Store:=Store) (getFile path create))
  /\ (forall path, keeps_this (Store:=Store) (resolve path))
  /\ keeps_this (Store:=Store) (DirH:=DirH) pwd
  /\ (forall path filter, keeps_this (Store:=Store) (ls path filter))
  /\ (forall path content options,
        keeps_this (Store:=Store) (DirH:=DirH) (write path content options))
  /\ (forall path destination,
        keeps_this (Store:=Store) (DirH:=DirH) (copyFile path destination))
  /\ (forall fuel path destination (w w' : World Store DirH) r,
        copyDir fuel path destination w = Some (r, w') -> this w' = this w).
Proof.
  split; [intros h; reflexivity|].
  split.
  { intros w path Hinv.
    destruct (resolvePath_normalized _ path Hinv) as [Hne [_ Hnorm]].
    split; [exact Hne|]. split; [exact Hnorm|].
    rewrite cd_unfold.
    pose proof (getDir_keeps_this path false w) as Hthis.
    destruct (getDir path false w) as [[h|e] w1]; simpl in *.
    - unfold nav_invariant. simpl. unfold current_path at 1. simpl.
      rewrite Hthis. exact Hnorm.
    - rewrite Hthis. exact Hinv. }
  split; [exact getDir_keeps_this|].
  split; [exact getFile_keeps_this|].
  split; [exact resolve_keeps_this|].
  split; [exact pwd_keeps_this|].
  split; [exact ls_keeps_this|].
  split; [exact write_keeps_this|].
  split; [exact copyFile_keeps_this|].
  exact copyDir_keeps_this.
Qed.

End NavigatorFacts.

(* ================================================================== *)
(** * Properties of the in-memory backend *)
(* ================================================================== *)

Module MemFacts.

Import Mem MemSpec.

Lemma loc_eqb_eq (p q : Loc) : loc_eqb p q = true <-> p = q.
Proof.
  revert q. induction p as [|x p IH]; intros [|y q]; simpl;
    try (split; [discriminate|intros H; discriminate]); [tauto|].
  rewrite andb_true_iff, String.eqb_eq, IH.
  split; [intros [-> ->]; reflexivity|intros H; inversion H; auto].
Qed.

Lemma is_prefix_refl (p : Loc) : is_prefix p p = true.
Proof. apply is_prefix_app. exists []. symmetry. apply app_nil_r. Qed.

Lemma is_prefix_trans (p q r : Loc) :
  is_prefix p q = true -> is_prefix q r = true -> is_prefix p r = true.
Proof.
  rewrite !is_prefix_app. intros [a ->] [b ->].
  exists (a ++ b). symmetry. apply app_assoc.
Qed.

Lemma is_prefix_antisym (p q : Loc) :
  is_prefix p q = true -> is_prefix q p = true -> p = q.
Proof.
  intros H1 H2. pose proof (is_prefix_length _ _ H1).
  pose proof (is_prefix_length _ _ H2).
  apply is_prefix_app in H1. destruct H1 as [a ->].
  rewrite length_app in *. destruct a; [symmetry; apply app_nil_r|simpl in *; lia].
Qed.

Lemma is_prefix_child (D d : Loc) (name : string) :
  is_prefix D d = true -> is_prefix D (d ++ [name]) = true.
Proof.
  intros H. apply (is_prefix_trans D d); [exact H|].
  apply is_prefix_app. exists [name]. reflexivity.
Qed.

(** A location that has [D] for a prefix is [D], or its parent has. *)
Lemma is_prefix_snoc (D d : Loc) (name : string) :
  is_prefix D (d ++ [name]) = true -> D = d ++ [name] \/ is_prefix D d = true.
Proof.
  revert d. induction D as [|x D IH]; intros d H; [right; reflexivity|].
  destruct d as [|y d]; simpl in *.
  - apply andb_true_iff in H. destruct H as [Hx HD].
    apply String.eqb_eq in Hx. subst. destruct D; [left; reflexivity|discriminate].
  - apply andb_true_iff in H. destruct H as [Hx HD].
    apply String.eqb_eq in Hx. subst. rewrite String.eqb_refl. simpl.
    destruct (IH d HD) as [->|Hp]; [left; reflexivity|right; exact Hp].
Qed.

Lemma child_name_spec (d q : Loc) (name : string) :
  child_name d q = Some name -> q = d ++ [name].
Proof.
  revert q. induction d as [|x d IH]; intros q H; simpl in H.
  - destruct q as [|y [|z q]]; inversion H; reflexivity.
  - destruct q as [|y q]; [discriminate|].
    destruct (String.eqb_spec x y); [|discriminate]. subst.
    simpl. f_equal. apply IH. exact H.
Qed.

Lemma lookup_keys (ns : list (Loc * Node)) (p : Loc) (n : Node) :
  lookup ns p = Some n -> In p (keys ns).
Proof.
  induction ns as [|[q m] ns IH]; simpl; [discriminate|].
  destruct (loc_eqb q p) eqn:E.
  - apply loc_eqb_eq in E. intros _. left. exact E.
  - intros H. right. apply IH. exact H.
Qed.

(** What the enumeration of [d] yields: handles of locations of the
    table that are one name below [d], file handles for files. *)
Lemma children_spec (ns : list (Loc * Node)) (d : Loc) (name : string)
    (h : AnyHandle Loc Loc) :
  In (name, h) (children ns d) ->
  loc_of h = d ++ [name] /\ In (loc_of h) (keys ns)
  /\ (forall f, h = OfFile f -> file_at ns f).
Proof.
  unfold children. rewrite in_flat_map. intros [[q node] [Hin H]]. simpl in H.
  destruct (child_name d q) as [name'|] eqn:Hc; [|contradiction].
  apply child_name_spec in Hc.
  destruct (lookup ns q) as [[|c]|] eqn:Hl; [| |contradiction];
    destruct H as [H|[]]; inversion H; subst; simpl;
    (split; [reflexivity|]); (split; [eapply lookup_keys; exact Hl|]);
    intros f Hf; inversion Hf; subst.
  exists c. exact Hl.
Qed.

Lemma depth_bound (ns : list (Loc * Node)) (p : Loc) :
  In p (keys ns) -> length p <= depth ns.
Proof.
  induction ns as [|[q node] ns IH]; simpl; [contradiction|].
  intros [<-|H]; unfold depth; simpl; [lia|].
  specialize (IH H). unfold depth in IH. lia.
Qed.

Lemma grows_refl (D : Loc) (ns : list (Loc * Node)) : grows D ns ns.
Proof. intros p H. left. exact H. Qed.

Lemma grows_trans (D : Loc) (ns1 ns2 ns3 : list (Loc * Node)) :
  grows D ns1 ns2 -> grows D ns2 ns3 -> grows D ns1 ns3.
Proof.
  intros H12 H23 p H. destruct (H23 p H) as [H2|H2]; [|right; exact H2].
  apply H12. exact H2.
Qed.

Lemma keys_replace (ns : list (Loc * Node)) (p : Loc) (n : Node) :
  keys (replace ns p n) = keys ns.
Proof.
  induction ns as [|[q m] ns IH]; simpl; [reflexivity|].
  destruct (loc_eqb q p); simpl; [reflexivity|]. f_equal. exact IH.
Qed.

(** ** What the calls of the backend do to the table *)

Lemma lookup_app (ns : list (Loc * Node)) (q : Loc) (n : Node) (p : Loc) :
  lookup (ns ++ [(q, n)]) p =
  match lookup ns p with
  | Some m => Some m
  | None => if loc_eqb q p then Some n else None
  end.
Proof.
  induction ns as [|[q' m] ns IH]; simpl; [reflexivity|].
  destruct (loc_eqb q' p); [reflexivity|exact IH].
Qed.

Lemma lookup_replace (ns : list (Loc * Node)) (t : Loc) (n : Node) (p : Loc) :
  lookup (replace ns t n) p =
  if loc_eqb t p
  then match lookup ns t with Some _ => Some n | None => None end
  else lookup ns p.
Proof.
  induction ns as [|[q m] ns IH]; simpl; [destruct (loc_eqb t p); reflexivity|].
  destruct (loc_eqb q t) eqn:Eqt; simpl.
  - apply loc_eqb_eq in Eqt. subst q. destruct (loc_eqb t p); reflexivity.
  - destruct (loc_eqb q p) eqn:Eqp.
    + apply loc_eqb_eq in Eqp. subst q.
      destruct (loc_eqb t p) eqn:Etp; [|reflexivity].
      apply loc_eqb_eq in Etp. subst t.
      rewrite (proj2 (loc_eqb_eq p p) eq_refl) in Eqt. discriminate.
    + exact IH.
Qed.

(** [get_child] returns the location one name below [d]; it leaves the
    table as it is or appends a fresh node at that location. *)
Lemma get_child_effect (want_dir : bool) (d : Loc) (name : string)
    (create : bool) (s : Store) :
  (forall x, fst (get_child want_dir d name create s) = Ok x -> x = d ++ [name])
  /\ (nodes (snd (get_child want_dir d name create s)) = nodes s
      \/ nodes (snd (get_child want_dir d name create s))
         = nodes s ++ [(d ++ [name], if want_dir then DirNode else FileNode "")]).
Proof.
  unfold get_child, bad_name, not_found, type_mismatch, throw, ret, bind, add_node.
  destruct (negb (valid_name name)); simpl; [split; [discriminate|left; reflexivity]|].
  destruct (lookup (nodes s) d) as [[|c]|]; simpl;
    try (split; [discriminate|left; reflexivity]).
  destruct (lookup (nodes s) (d ++ [name])) as [[|c]|]; destruct want_dir, create;
    simpl; (split; [intros x H; inversion H; reflexivity|]);
    first [left; reflexivity|right; reflexivity].
Qed.

Lemma quiet_same {A} (m : M Store A) :
  (forall s, nodes (snd (m s)) = nodes s) -> quiet m.
Proof. intros H s. rewrite H. split; [reflexivity|tauto]. Qed.

Lemma quiet_bind {A B} (m : M Store A) (k : A -> M Store B) :
  quiet m -> (forall a, quiet (k a)) -> quiet (x <- m ;; k x).
Proof.
  intros Hm Hk s. unfold bind. destruct (Hm s) as [H1 H2].
  destruct (m s) as [[a|e] s1]; simpl in *; [|split; assumption].
  destruct (Hk a s1) as [H3 H4]. split; [congruence|].
  intros p Hp. apply H2, H4. exact Hp.
Qed.

Lemma read_file_quiet (f : Loc) : quiet (read_file f).
Proof.
  apply quiet_same. intros s. unfold read_file, not_found, throw, ret.
  destruct (lookup (nodes s) f) as [[|c]|]; reflexivity.
Qed.

Lemma open_stream_quiet (f : Loc) (o : option WriteOptions) : quiet (open_stream f o).
Proof.
  apply quiet_same. intros s. unfold open_stream, not_found, throw.
  destruct (lookup (nodes s) f) as [[|c]|]; reflexivity.
Qed.

Lemma with_stream_quiet (w : nat) (f : Stream -> Stream) : quiet (with_stream w f).
Proof.
  apply quiet_same. intros s. unfold with_stream, bad_stream, throw.
  destruct (nth_error (streams s) w) as [st|]; [|reflexivity].
  destruct (closed st); reflexivity.
Qed.

Lemma close_stream_quiet (w : nat) : quiet (close_stream w).
Proof.
  intros s. unfold close_stream, bad_stream, not_found, throw.
  destruct (nth_error (streams s) w) as [st|]; [|split; [reflexivity|tauto]].
  destruct (closed st); [split; [reflexivity|tauto]|].
  destruct (lookup (nodes s) (target st)) as [[|c]|] eqn:E; simpl;
    try (split; [reflexivity|tauto]).
  split; [apply keys_replace|].
  intros p [c' Hp]. rewrite lookup_replace in Hp.
  destruct (loc_eqb (target st) p) eqn:Etp; [|exists c'; exact Hp].
  apply loc_eqb_eq in Etp. subst p. exists c. exact E.
Qed.

(** Copying the content of a file adds no location and no file. *)
Lemma copyFileHelper_quiet (file to : Loc) : quiet (copyFileHelper file to).
Proof.
  unfold copyFileHelper. simpl.
  apply quiet_bind; [apply read_file_quiet|]. intros blob.
  apply quiet_bind; [apply open_stream_quiet|]. intros w.
  apply quiet_bind; [apply with_stream_quiet|]. intros _.
  apply close_stream_quiet.
Qed.

(** ** Copying a directory *)

(** An entry that is the original destination starts no recursion and
    touches nothing. *)
Lemma copy_entry_skips (recur : Loc -> Loc -> Loc -> Partial Store unit)
    (to D : Loc) (name : string) (s : Store) :
  copy_entry recur to D (name, OfDir D) s = Some (Ok tt, s).
Proof.
  unfold copy_entry. simpl. unfold ret.
  replace (loc_eqb D D) with true by (symmetry; apply loc_eqb_eq; reflexivity).
  reflexivity.
Qed.

Lemma image_inside (D dir to : Loc) (ns0 : list (Loc * Node)) (p : Loc) :
  is_prefix D to = true -> image D dir to ns0 p ->
  is_prefix D p = true /\ p <> D.
Proof.
  intros Hto [q [Hq [-> _]]]. split.
  - apply (is_prefix_trans D to); [exact Hto|]. apply is_prefix_app. exists q. reflexivity.
  - intros E. apply is_prefix_length in Hto.
    assert (length (to ++ q) = length D) by (rewrite E; reflexivity).
    rewrite length_app in *. destruct q; [contradiction|simpl in *; lia].
Qed.

Lemma image_child (D dir to : Loc) (ns0 : list (Loc * Node)) (name : string) (p : Loc) :
  image D (dir ++ [name]) (to ++ [name]) ns0 p -> image D dir to ns0 p.
Proof.
  intros [q [Hq [-> [Hin Hout]]]]. exists (name :: q).
  rewrite <- !app_assoc in *. simpl in *.
  repeat split; try assumption. discriminate.
Qed.

Lemma image_entry (D dir to : Loc) (ns0 : list (Loc * Node)) (name : string) :
  In (dir ++ [name]) (keys ns0) -> is_prefix D (dir ++ [name]) = false ->
  image D dir to ns0 (to ++ [name]).
Proof.
  intros Hin Hout. exists [name]. repeat split; try assumption. discriminate.
Qed.

Lemma copied_refl (D dir to : Loc) (ns0 ns : list (Loc * Node)) :
  copied D dir to ns0 ns ns.
Proof. split; [intros p H; left; exact H|tauto]. Qed.

Lemma copied_trans (D dir to : Loc) (ns0 ns1 ns2 ns3 : list (Loc * Node)) :
  copied D dir to ns0 ns1 ns2 -> copied D dir to ns0 ns2 ns3 ->
  copied D dir to ns0 ns1 ns3.
Proof.
  intros [H12 F12] [H23 F23]. split; [|tauto].
  intros p H. destruct (H23 p H) as [H2|H2]; [apply H12; exact H2|right; exact H2].
Qed.

Lemma copied_grows (D dir to : Loc) (ns0 ns ns' : list (Loc * Node)) :
  is_prefix D to = true -> copied D dir to ns0 ns ns' -> grows D ns ns'.
Proof.
  intros Hto [H _] p Hp. destruct (H p Hp) as [H1|H1]; [left; exact H1|].
  right. apply (image_inside D dir to ns0 p Hto H1).
Qed.

(** The one node that [get_child] may append for the entry [name] of
    [dir] is the image of that entry. *)
Lemma get_child_copied (D dir to : Loc) (ns0 : list (Loc * Node))
    (want_dir : bool) (name : string) (s : Store) :
  is_prefix D to = true ->
  In (dir ++ [name]) (keys ns0) -> is_prefix D (dir ++ [name]) = false ->
  copied D dir to ns0 (nodes s) (nodes (snd (get_child want_dir to name true s))).
Proof.
  intros Hto Hin Hout.
  destruct (get_child_effect want_dir to name true s) as [_ [E|E]]; rewrite E;
    [apply copied_refl|].
  pose proof (image_entry D dir to ns0 name Hin Hout) as Him.
  split.
  - intros p Hp. unfold keys in Hp. rewrite map_app, in_app_iff in Hp.
    destruct Hp as [Hp|[<-|[]]]; [left; exact Hp|right; exact Him].
  - intros [c Hc]. rewrite lookup_app in Hc.
    unfold file_at.
    destruct (lookup (nodes s) D) as [m|]; [exists c; exact Hc|].
    destruct (loc_eqb (to ++ [name]) D) eqn:Eq; [|discriminate].
    apply loc_eqb_eq in Eq. exfalso.
    apply (proj2 (image_inside D dir to ns0 _ Hto Him)). exact Eq.
Qed.

Section CopyEntries.

Variables (D : Loc) (ns0 : list (Loc * Node)).
Variable recur : Loc -> Loc -> Loc -> Partial Store unit.
Variables dir to : Loc.

Hypothesis to_inside : is_prefix D to = true.
Hypothesis dir_outside : is_prefix D dir = false.

(** The recursive calls come back for the children outside [D]. *)
Hypothesis recur_returns :
  forall (name : string) (s : Store),
    In (dir ++ [name]) (keys ns0) ->
    is_prefix D (dir ++ [name]) = false ->
    ready D ns0 s ->
    exists r s', recur (dir ++ [name]) (to ++ [name]) D s = Some (r, s')
                 /\ copied D (dir ++ [name]) (to ++ [name]) ns0 (nodes s) (nodes s').

Lemma ready_copied (s : Store) (ns' : list (Loc * Node)) :
  ready D ns0 s -> copied D dir to ns0 (nodes s) ns' ->
  grows D ns0 ns' /\ ~ file_at ns' D.
Proof.
  intros [Hg Hf] Hc. split.
  - eapply grows_trans; [exact Hg|]. eapply copied_grows; eassumption.
  - intros H. apply Hf. apply (proj2 Hc). exact H.
Qed.

Lemma copy_entry_returns (name : string) (h : AnyHandle Loc Loc) (s : Store) :
  listed D ns0 dir name h -> ready D ns0 s ->
  exists r s', copy_entry recur to D (name, h) s = Some (r, s')
               /\ copied D dir to ns0 (nodes s) (nodes s').
Proof.
  intros [Hloc [Hin Hfile]] Hready. unfold copy_entry. simpl fst. simpl snd.
  assert (Hout : loc_of h <> D -> is_prefix D (loc_of h) = false).
  { intros Hne. destruct (is_prefix D (loc_of h)) eqn:Hp; [|reflexivity].
    rewrite Hloc in Hp, Hne.
    destruct (is_prefix_snoc _ _ _ Hp) as [E|Hd]; congruence. }
  destruct h as [c|f]; simpl in Hloc, Hin, Hout.
  - simpl. unfold ret. destruct (loc_eqb c D) eqn:Heq.
    + exists (Ok tt), s. split; [reflexivity|apply copied_refl].
    + assert (Hne : c <> D).
      { intros E. rewrite (proj2 (loc_eqb_eq _ _) E) in Heq. discriminate. }
      specialize (Hout Hne). specialize (Hin Hout). subst c.
      pose proof (get_child_copied D dir to ns0 true name s to_inside Hin Hout) as Hc.
      destruct (get_child_effect true to name true s) as [Hx _].
      destruct (get_child true to name true s) as [[d|e] s2]; simpl in Hx, Hc.
      * specialize (Hx d eq_refl). subst d.
        destruct (recur_returns name s2 Hin Hout) as [r [s' [Hr Hc']]].
        { apply ready_copied with (s := s); assumption. }
        exists r, s'. split; [exact Hr|].
        eapply copied_trans; [exact Hc|].
        destruct Hc' as [Hk Hf]. split; [|exact Hf].
        intros p Hp. destruct (Hk p Hp) as [H1|H1]; [left; exact H1|].
        right. apply image_child with (name := name). exact H1.
      * exists (Throw e), s2. split; [reflexivity|exact Hc].
  - unfold bind. simpl.
    specialize (Hout (Hfile f eq_refl)). specialize (Hin Hout). subst f.
    pose proof (get_child_copied D dir to ns0 false name s to_inside Hin Hout) as Hc.
    destruct (get_child false to name true s) as [[d|e] s2]; simpl in Hc.
    + destruct (copyFileHelper (dir ++ [name]) d s2) as [r s3] eqn:E.
      destruct (copyFileHelper_quiet (dir ++ [name]) d s2) as [Hk Hf].
      unfold Loc in *. rewrite E in Hk, Hf |- *. simpl in Hk, Hf.
      exists r, s3. split; [reflexivity|].
      eapply copied_trans; [exact Hc|]. split; [|apply Hf].
      intros p Hp. left. rewrite <- Hk. exact Hp.
    + exists (Throw e), s2. split; [reflexivity|exact Hc].
Qed.

Lemma copy_entries_returns (ents : list (string * AnyHandle Loc Loc)) :
  forall (acc : Outcome unit) (s : Store),
    (forall name h, In (name, h) ents -> listed D ns0 dir name h) ->
    ready D ns0 s ->
    exists r s', copy_entries recur to D ents acc s = Some (r, s')
                 /\ copied D dir to ns0 (nodes s) (nodes s').
Proof.
  induction ents as [|[name h] ents IH]; intros acc s Hents Hready; simpl.
  - exists acc, s. split; [reflexivity|apply copied_refl].
  - destruct (copy_entry_returns name h s (Hents name h (or_introl eq_refl)) Hready)
      as [r [s1 [Hr Hc]]].
    rewrite Hr.
    destruct (IH (pool acc r) s1) as [r' [s' [Hr' Hc']]].
    + intros name' h' Hin. apply Hents. right. exact Hin.
    + apply ready_copied with (s := s); assumption.
    + exists r', s'. split; [exact Hr'|]. eapply copied_trans; eassumption.
Qed.

End CopyEntries.

(** What the enumeration of [dir] yields is listed. *)
Lemma children_listed (D : Loc) (ns0 : list (Loc * Node)) (dir : Loc) (s : Store)
    (name : string) (h : AnyHandle Loc Loc) :
  ready D ns0 s -> In (name, h) (children (nodes s) dir) -> listed D ns0 dir name h.
Proof.
  intros [Hg Hf] Hin. destruct (children_spec _ _ _ _ Hin) as [Hloc [Hk Hfile]].
  split; [exact Hloc|]. split.
  - intros Hout. destruct (Hg _ Hk) as [H|H]; [exact H|congruence].
  - intros f -> ->. apply Hf. apply Hfile. reflexivity.
Qed.

(** [copyDirHelper] comes back whenever the directory it reads is outside
    the original destination, the directory it writes to is inside, and
    the budget covers the depth of the tree outside the destination; what
    it adds are images of entries outside the destination. *)
Lemma copyDirHelper_returns (D : Loc) (n : nat) (ns0 : list (Loc * Node)) :
  bounded D n ns0 ->
  forall (fuel : nat) (dir to : Loc) (s : Store),
    0 < fuel -> n < fuel + length dir ->
    is_prefix D to = true -> is_prefix D dir = false ->
    ready D ns0 s ->
    exists r s', copyDirHelper fuel dir to D s = Some (r, s')
                 /\ copied D dir to ns0 (nodes s) (nodes s').
Proof.
  intros Hb.
  induction fuel as [|fuel IH]; intros dir to s Hpos Hfuel Hto Hdir Hready; [lia|].
  simpl. unfold list_entries, not_found, throw, ret.
  destruct (lookup (nodes s) dir) as [[|c]|];
    try (eexists _, _; split; [reflexivity|apply copied_refl]).
  apply (copy_entries_returns D ns0 (copyDirHelper fuel) dir to Hto Hdir).
  - intros name s' Hin Hout Hready'.
    pose proof (Hb _ Hin Hout) as Hlen. rewrite length_app in Hlen. simpl in Hlen.
    apply IH; try assumption; try lia.
    + rewrite length_app. simpl. lia.
    + apply is_prefix_child. exact Hto.
  - intros name h Hin. apply children_listed with (s := s); assumption.
  - exact Hready.
Qed.

(** Nothing can be put into a destination that is no directory. *)
Lemma get_child_stale (want_dir : bool) (d : Loc) (name : string)
    (create : bool) (s : Store) :
  lookup (nodes s) d <> Some DirNode ->
  exists e, get_child want_dir d name create s = (Throw e, s).
Proof.
  intros H. unfold get_child, bad_name, not_found, throw.
  destruct (negb (valid_name name)); [eexists; reflexivity|].
  destruct (lookup (nodes s) d) as [[|c]|]; [contradiction| |]; eexists; reflexivity.
Qed.

Lemma copy_entries_stale (recur : Loc -> Loc -> Loc -> Partial Store unit)
    (to D : Loc) (s : Store) (ents : list (string * AnyHandle Loc Loc)) :
  lookup (nodes s) to <> Some DirNode ->
  forall acc, exists r, copy_entries recur to D ents acc s = Some (r, s).
Proof.
  intros H. induction ents as [|[name h] ents IH]; intros acc; simpl;
    [exists acc; reflexivity|].
  assert (Hentry : exists r, copy_entry recur to D (name, h) s = Some (r, s)).
  { unfold copy_entry. simpl fst. simpl snd. destruct h as [c|f].
    - simpl. unfold ret. destruct (loc_eqb c D); [eexists; reflexivity|].
      destruct (get_child_stale true to name true s H) as [e ->].
      eexists. reflexivity.
    - unfold bind. simpl.
      destruct (get_child_stale false to name true s H) as [e ->].
      eexists. reflexivity. }
  destruct Hentry as [r ->]. apply IH.
Qed.

Lemma copyDirHelper_stale (fuel : nat) (dir to D : Loc) (s : Store) :
  0 < fuel -> lookup (nodes s) to <> Some DirNode ->
  exists r, copyDirHelper fuel dir to D s = Some (r, s).
Proof.
  intros Hpos H. destruct fuel as [|fuel]; [lia|].
  simpl. unfold list_entries, not_found, throw, ret.
  destruct (lookup (nodes s) dir) as [[|c]|]; try (eexists; reflexivity).
  apply copy_entries_stale. exact H.
Qed.

Lemma depth_bounded (D : Loc) (ns : list (Loc * Node)) : bounded D (depth ns) ns.
Proof. intros p Hp _. apply depth_bound. exact Hp. Qed.

(** A location below the destination's own place inside the copy is no
    image: the destination is not copied into itself. *)
Lemma image_not_self (dir sfx : Loc) (ns0 : list (Loc * Node)) (rest : Loc) :
  ~ image (dir ++ sfx) dir (dir ++ sfx) ns0 ((dir ++ sfx) ++ sfx ++ rest).
Proof.
  intros [q [_ [E [_ Hout]]]]. apply app_inv_head in E. subst q.
  assert (H : is_prefix (dir ++ sfx) (dir ++ sfx ++ rest) = true).
  { apply is_prefix_app. exists rest. apply app_assoc. }
  congruence.
Qed.

(** C9. [copyDir] comes back when the destination lies inside the source
    tree.  An entry that is the original destination is skipped without
    a recursive call.  A budget above the depth of the tree is enough for
    the recursion, whatever the tree holds, and all that is added to the
    tree then are copies, inside the destination, of entries outside it:
    in particular nothing appears at the place the destination would
    take inside its own copy.  Copying [/a] into [/a/sub] in the sample
    tree stops and leaves no [/a/sub/sub]. *)
Theorem copyDir_terminates :
  (forall recur to D name s,
     copy_entry recur to D (name, OfDir D) s = Some (Ok tt, s))
  /\ (forall (w w1 w2 : World Store Loc) (path destination : PathOr Loc)
             (dir sfx : Loc) (fuel : nat),
        dirOf path false w = (Ok dir, w1) ->
        dirOf destination true w1 = (Ok (dir ++ sfx), w2) ->
        depth (nodes (store w2)) < fuel ->
        exists r w',
          copyDir fuel path destination w = Some (r, w')
          /\ (forall p, In p (keys (nodes (store w'))) ->
                 In p (keys (nodes (store w2)))
                 \/ image (dir ++ sfx) dir (dir ++ sfx) (nodes (store w2)) p)
          /\ (forall rest, In ((dir ++ sfx) ++ sfx ++ rest) (keys (nodes (store w'))) ->
                 In ((dir ++ sfx) ++ sfx ++ rest) (keys (nodes (store w2)))))
  /\ (exists w',
        copyDir 2 (IsPath (PStr "/a")) (IsPath (PStr "/a/sub")) (world sample)
        = Some (Ok tt, w')
        /\ keys (nodes (store w'))
           = keys (nodes sample)
             ++ [["a"; "sub"]; ["a"; "sub"; "x"]; ["a"; "sub"; "x"; "f"];
                 ["a"; "sub"; "a"]; ["a"; "sub"; "g"]]
        /\ lookup (nodes (store w')) ["a"; "sub"; "sub"] = None).
Proof.
  split; [exact copy_entry_skips|]. split.
  - intros w w1 w2 path destination dir sfx fuel Hsrc Hdst Hfuel.
    unfold copyDir. rewrite Hsrc, Hdst. unfold await. simpl. unfold ret.
    destruct (loc_eqb dir (dir ++ sfx)) eqn:Heq.
    { eexists _, _. split; [reflexivity|]. simpl. split; intros; [left|]; assumption. }
    assert (Hout : is_prefix (dir ++ sfx) dir = false).
    { destruct (is_prefix (dir ++ sfx) dir) eqn:Hp; [|reflexivity].
      rewrite (proj2 (loc_eqb_eq dir (dir ++ sfx))) in Heq; [discriminate|].
      apply is_prefix_antisym; [|exact Hp]. apply is_prefix_app. exists sfx. reflexivity. }
    destruct (lookup (nodes (store w2)) (dir ++ sfx)) as [[|c]|] eqn:Hl.
    2:{ destruct (copyDirHelper_stale fuel dir (dir ++ sfx) (dir ++ sfx) (store w2))
          as [r Hr]; [lia|congruence|].
        rewrite Hr. eexists _, _. split; [reflexivity|]. simpl.
        split; intros; [left|]; assumption. }
    all: destruct (copyDirHelper_returns (dir ++ sfx) (depth (nodes (store w2)))
                     (nodes (store w2)) (depth_bounded _ _) fuel dir (dir ++ sfx)
                     (store w2)) as [r [s' [Hr [Hk _]]]];
      try assumption; try lia; try apply is_prefix_refl;
      try (split; [apply grows_refl|intros [c Hc]; congruence]).
    all: rewrite Hr; eexists _, _; (split; [reflexivity|]); simpl; (split; [exact Hk|]);
      intros rest Hin; destruct (Hk _ Hin) as [H|H]; [exact H|];
      exfalso; exact (image_not_self _ _ _ _ H).
  - eexists. split; [vm_compute; reflexivity|]. split; reflexivity.
Qed.

Lemma copyDir_terminates_witness :
  dirOf (IsPath (PStr "/a")) false (world sample) = (Ok ["a"], world sample)
  /\ fst (dirOf (IsPath (PStr "/a/sub")) true (world sample)) = Ok (["a"] ++ ["sub"])
  /\ exists r w',
       copyDir 4 (IsPath (PStr "/a")) (IsPath (PStr "/a/sub")) (world sample)
       = Some (r, w').
Proof.
  split; [reflexivity|]. split; [reflexivity|].
  destruct (proj1 (proj2 copyDir_terminates)
              (world sample) (world sample)
              (snd (dirOf (IsPath (PStr "/a/sub")) true (world sample)))
              (IsPath (PStr "/a")) (IsPath (PStr "/a/sub"))
              ["a"] ["sub"] 4)
    as [r [w' [H _]]]; [reflexivity|reflexivity|vm_compute; lia|].
  exists r, w'. exact H.
Defined.

(** ** The navigator on the in-memory backend *)

Lemma get_child_readonly (want_dir : bool) (d : Loc) (name : string) (s : Store) :
  snd (get_child want_dir d name false s) = s.
Proof.
  unfold get_child, bad_name, not_found, type_mismatch, throw, ret.
  destruct (negb (valid_name name)); [reflexivity|].
  destruct (lookup (nodes s) d) as [[|c]|]; try reflexivity.
  destruct (lookup (nodes s) (d ++ [name])) as [[|c]|]; destruct want_dir;
    reflexivity.
Qed.

Lemma getDir_walk_witness :
  (nav_invariant (this (world sample))
   /\ PathSpec.is_normalized_absolute
        (resolvePath (current_path (this (world sample))) (PStr "a/x")) = true)
  /\ (resolvePath (current_path (this (world sample))) (PStr "a/x")
      = current_path (this (world sample)) ++ ["a"; "x"]
      /\ getDir (PStr "a/x") false (world sample)
         = await (walk (current_handle (this (world sample))) ["a"; "x"] false)
             (world sample))
  /\ getDir (PStr "/b") false (after_cd "/a" (world sample))
     = await (walk [] ["b"] false) (after_cd "/a" (world sample)).
Proof.
  split; [|split].
  - split; [reflexivity|].
    apply (proj1 (getDir_walk (world sample) (PStr "a/x") false)). reflexivity.
  - split; [reflexivity|].
    apply (proj1 (proj2 (getDir_walk (world sample) (PStr "a/x") false)) ["a"; "x"]).
    reflexivity.
  - apply (proj2 (proj2 (getDir_walk (after_cd "/a" (world sample)) (PStr "/b") false))).
    intros suffix H. vm_compute in H. discriminate.
Defined.

(** C7 fails on the code.  With [/a] as the current directory, [getFile]
    on [/a] starts at the cached handle of [/a], takes no step, and asks
    [/a] itself for the name [a]: it returns the file [/a/a].  The
    parent of the target is the root, in which [a] is a directory, and
    the same call from the root directory is refused for that reason. *)
Theorem getFile_current_directory_slip :
  this (after_cd "/a" (world sample)) = mkLocalFS [] (mkCurrent ["a"] [""; "a"])
  /\ resolvePath [""; "a"] (PStr "/a") = [""; "a"]
  /\ fst (getFile (PStr "/a") false (after_cd "/a" (world sample)))
     = Ok ["a"; "a"]
  /\ fst ((parent <- await (walk [] [] false) ;;
           await (getFileHandle parent "a" false))
            (after_cd "/a" (world sample)))
     = Throw (DOMException "TypeMismatchError")
  /\ fst (getFile (PStr "/a") false (world sample))
     = Throw (DOMException "TypeMismatchError").
Proof. repeat split. Qed.

Lemma cd_atomic_witness :
  (getDir (PStr "/nowhere") false (world sample)
   = (Throw (DOMException "NotFoundError"), world sample)
   /\ cd (PStr "/nowhere") (world sample)
      = (Throw (DOMException "NotFoundError"), world sample))
  /\ cd (PStr "/a/x") (world sample)
     = (Ok ["a"; "x"],
        mkWorld (mkLocalFS [] (mkCurrent ["a"; "x"] [""; "a"; "x"])) sample)
  /\ paired (this (after_cd "/a/x" (world sample)))
       (store (after_cd "/a/x" (world sample))).
Proof.
  split; [|split].
  - split; [reflexivity|].
    apply (proj1 (cd_atomic (world sample) (PStr "/nowhere"))
             (DOMException "NotFoundError") (world sample)).
    reflexivity.
  - apply (proj1 (proj2 (cd_atomic (world sample) (PStr "/a/x")))
             ["a"; "x"] (world sample)).
    reflexivity.
  - apply (proj2 (proj2 (cd_atomic (FS:=api) (world sample) (PStr "/a/x")))
             (get_child_readonly true) eq_refl eq_refl ["a"; "x"]).
    reflexivity.
Defined.

Lemma navigator_invariant_witness :
  nav_invariant (this (world sample))
  /\ resolvePath [""] (PStr "a/../b/./") = [""; "b"]
  /\ nav_invariant (this (after_cd "a/../b/./" (world sample)))
  /\ this (snd (getFile (PStr "a/g") true (world sample))) = this (world sample).
Proof.
  split; [reflexivity|]. split; [reflexivity|]. split.
  - apply (proj1 (proj2 navigator_invariant) (world sample) (PStr "a/../b/./")).
    reflexivity.
  - apply (proj1 (proj2 (proj2 (proj2 navigator_invariant)))).
Defined.

End MemFacts.

(* ================================================================== *)
(** * Further properties of the path library *)
(* ================================================================== *)

Module PathMore.

Import Path PathSpec MoreSpec PathFacts.

(** ** The loop, seen from outside *)

(** Past index 0 the body does not look at the index. *)
Lemma body_index (au : bool) (i j : nat) (p : string) (s : NState) :
  i <> 0 -> j <> 0 ->
  normalize_body au i (Some p) s = normalize_body au j (Some p) s.
Proof.
  intros Hi Hj. unfold normalize_body.
  destruct i; [lia|]. destruct j; [lia|]. reflexivity.
Qed.

Lemma scan_from_index (au : bool) (l : list string) :
  forall i j s, i <> 0 -> j <> 0 -> scan_from au i l s = scan_from au j l s.
Proof.
  induction l as [|p l IH]; intros i j s Hi Hj; simpl; [reflexivity|].
  rewrite (body_index au i j p s Hi Hj).
  destruct (normalize_body au j (Some p) s); [|reflexivity].
  apply IH; lia.
Qed.

Lemma alike_refl (au : bool) (s : NState) : alike au s s.
Proof. repeat split. Qed.

(** The body takes states that are alike to flows that are alike. *)
Lemma body_alike (au : bool) (i : nat) (p : string) (s s' : NState) :
  alike au s s' ->
  alike_flow au (normalize_body au i (Some p) s) (normalize_body au i (Some p) s').
Proof.
  destruct s as [r n a], s' as [r' n' a']. unfold alike. simpl.
  intros [Hres [Habs Hseg]]. subst r' a'.
  unfold normalize_body. simpl.
  destruct a, au; simpl;
    try (rewrite <- (Hseg eq_refl eq_refl));
    repeat match goal with
      | |- context [if ?c then _ else _] => destruct c
      end;
    simpl; unfold alike; simpl; repeat split; intros; congruence.
Qed.

Lemma scan_from_alike (au : bool) (l : list string) :
  forall i s s',
    alike au s s' ->
    alike_flow au (scan_from au i l s) (scan_from au i l s').
Proof.
  induction l as [|p l IH]; intros i s s' H; simpl; [exact H|].
  pose proof (body_alike au i p s s' H) as Hb.
  destruct (normalize_body au i (Some p) s) as [t|r],
           (normalize_body au i (Some p) s') as [t'|r']; simpl in Hb;
    try contradiction; [apply IH; exact Hb|exact Hb].
Qed.

Lemma alike_finish (au : bool) (f f' : Flow) :
  alike_flow au f f' -> finish f = finish f'.
Proof.
  destruct f as [s|r], f' as [s'|r']; simpl; try contradiction;
    [intros [H _]; exact H|tauto].
Qed.

(** Every state of the loop that is absolute holds the sentinel. *)
Lemma body_anchored (au : bool) (i : nat) (p : string) (s t : NState) :
  anchored s -> normalize_body au i (Some p) s = Continue t -> anchored t.
Proof.
  unfold anchored, normalize_body. intros Hs Hb.
  destruct ((i =? 0)%nat && String.eqb p ROOT_NAME).
  { inversion Hb; subst; simpl. intros _. unfold Js.push.
    destruct (res s); discriminate. }
  destruct (String.eqb p "" || String.eqb p "."); [inversion Hb; subst; exact Hs|].
  destruct (String.eqb p "..").
  - destruct (isAbsolute s) eqn:Ha; simpl in Hb.
    + destruct (1 <? length (res s))%nat eqn:Hl; inversion Hb; subst; simpl;
        [|intros _; apply Hs; reflexivity].
      intros _. apply Nat.ltb_lt in Hl. unfold Js.pop.
      destruct (res s) as [|a [|b l]]; simpl in *; try lia. discriminate.
    + repeat match type of Hb with
        | (if ?c then _ else _) = _ => destruct c
        end; inversion Hb; subst; simpl; intros H; discriminate.
  - inversion Hb; subst; simpl. intros _. unfold Js.push.
    destruct (res s); discriminate.
Qed.

Lemma scan_from_anchored (au : bool) (l : list string) :
  forall i s t, anchored s -> scan_from au i l s = Continue t -> anchored t.
Proof.
  induction l as [|p l IH]; intros i s t Hs H; simpl in H.
  - inversion H; subst. exact Hs.
  - destruct (normalize_body au i (Some p) s) as [s1|r] eqn:Hb; [|discriminate].
    eapply IH; [|exact H]. eapply body_anchored; eassumption.
Qed.

Lemma scan_anchored (au : bool) (pre : list string) (t : NState) :
  scan au pre = Continue t -> anchored t.
Proof.
  unfold scan. intros H.
  apply (scan_from_anchored au pre 0 (mkNState [] 0 false) t);
    [intros H0; discriminate|exact H].
Qed.

(** Two inputs with a common prefix [pre], after which the loop is in
    states that are alike, have the same result on a common rest. *)
Lemma normalize_rest (au : bool) (pre mid mid' post : list string) :
  pre <> [] ->
  (forall s, scan au pre = Continue s ->
     alike_flow au (scan_from au (length pre) mid s)
                   (scan_from au (length pre) mid' s)) ->
  normalize (pre ++ mid ++ post) au = normalize (pre ++ mid' ++ post) au.
Proof.
  intros Hpre Hmid. rewrite !normalize_scan. unfold scan in *.
  rewrite !scan_from_app. simpl.
  destruct (scan_from au 0 pre (mkNState [] 0 false)) as [s|r]; [|reflexivity].
  specialize (Hmid s eq_refl). rewrite !scan_from_app.
  assert (Hlen : length pre <> 0) by (destruct pre; [contradiction|discriminate]).
  destruct (scan_from au (length pre) mid s) as [t|r],
           (scan_from au (length pre) mid' s) as [t'|r']; simpl in Hmid;
    try contradiction; [|congruence].
  rewrite (scan_from_index au post (length pre + length mid)
             (length pre + length mid')) by lia.
  apply (alike_finish au). apply scan_from_alike. exact Hmid.
Qed.

(** Names are pushed one by one, whatever the state. *)
Lemma names_scan (au : bool) (rest : list string) :
  forall i acc n a,
    names rest ->
    scan_from au i rest (mkNState acc n a)
    = Continue (mkNState (acc ++ rest) (n + length rest) a).
Proof.
  induction rest as [|p rest IH]; intros i acc n a Hrest; simpl.
  - rewrite app_nil_r, Nat.add_0_r. reflexivity.
  - unfold names in Hrest. simpl in Hrest.
    apply andb_true_iff in Hrest. destruct Hrest as [Hp Hrest].
    apply is_name_true in Hp. destruct Hp as [H1 [H2 H3]].
    unfold normalize_body. simpl.
    replace ((i =? 0)%nat && String.eqb p ROOT_NAME) with false
      by (destruct (String.eqb_spec p ROOT_NAME);
          [contradiction|rewrite andb_false_r; reflexivity]).
    destruct (String.eqb_spec p ""); [contradiction|].
    destruct (String.eqb_spec p "."); [contradiction|].
    destruct (String.eqb_spec p ".."); [contradiction|]. simpl.
    rewrite IH by exact Hrest. unfold Js.push.
    rewrite <- app_assoc. simpl. do 2 f_equal. lia.
Qed.

(** With [allowUpstream], escapes pile up while no name is held. *)
Lemma escapes_scan (k : nat) :
  forall i j,
    scan_from true i (repeat ".." k) (mkNState (repeat ".." j) 0 false)
    = Continue (mkNState (repeat ".." (j + k)) 0 false).
Proof.
  induction k as [|k IH]; intros i j; simpl.
  - rewrite Nat.add_0_r. reflexivity.
  - unfold normalize_body. simpl. rewrite andb_false_r. simpl.
    unfold Js.push. rewrite repeat_snoc. rewrite (IH (S i) (S j)).
    do 3 f_equal. lia.
Qed.

(** Without [allowUpstream], relative input leaves names only, or
    fails. *)
Lemma plain_scan (rest : list string) :
  forall i acc n,
    (i = 0 -> hd_error rest <> Some ROOT_NAME) ->
    names acc ->
    scan_from false i rest (mkNState acc n false) = Return []
    \/ exists acc' n',
         scan_from false i rest (mkNState acc n false)
         = Continue (mkNState acc' n' false)
         /\ names acc'.
Proof.
  induction rest as [|p rest IH]; intros i acc n Hi Hacc; simpl.
  - right. exists acc, n. split; [reflexivity|exact Hacc].
  - assert (Hnext : S i = 0 -> hd_error rest <> Some ROOT_NAME) by (intros; lia).
    unfold normalize_body. simpl.
    destruct ((i =? 0)%nat && String.eqb p ROOT_NAME) eqn:H0.
    { apply andb_true_iff in H0. destruct H0 as [Hz Hp].
      apply Nat.eqb_eq in Hz. apply String.eqb_eq in Hp. subst.
      exfalso. apply (Hi eq_refl). reflexivity. }
    destruct (String.eqb_spec p ""); simpl; [apply IH; assumption|].
    destruct (String.eqb_spec p "."); simpl; [apply IH; assumption|].
    destruct (String.eqb_spec p "..").
    + destruct acc as [|a acc]; simpl; [left; reflexivity|].
      apply (IH (S i) (removelast (a :: acc)) n Hnext (names_removelast _ Hacc)).
    + apply IH; [assumption|]. apply names_app; [exact Hacc|].
      apply is_name_true. auto.
Qed.

Lemma names_head (l : list string) : names l -> hd_error l <> Some ROOT_NAME.
Proof.
  destruct l as [|p l]; [discriminate|]. unfold names. simpl.
  intros H E. inversion E; subst. discriminate.
Qed.

Lemma is_absolute_cons (p : list string) :
  is_absolute p = true -> exists rest, p = ROOT_NAME :: rest.
Proof.
  destruct p as [|x rest]; [discriminate|]. unfold is_absolute. simpl.
  intros H. apply String.eqb_eq in H. subst. exists rest. reflexivity.
Qed.

(** ** What [normalize] returns *)

Lemma shape_of_normalize (p : list string) (f : bool) :
  (is_absolute p = true
   /\ exists out, normalize p f = ROOT_NAME :: out /\ forallb is_name out = true)
  \/ (is_absolute p = false
      /\ exists k out,
           normalize p f = repeat ".." k ++ out
           /\ forallb is_name out = true
           /\ (k = 0 \/ f = true)).
Proof.
  destruct (is_absolute p) eqn:Habs.
  - left. split; [reflexivity|].
    destruct (is_absolute_cons p Habs) as [rest ->].
    rewrite normalize_scan, absolute_start.
    destruct (absolute_scan f rest 1 [] 0) as [out [n [Hscan Hout]]];
      [lia|reflexivity|].
    rewrite Hscan. exists out. split; [reflexivity|exact Hout].
  - right. split; [reflexivity|].
    assert (Hhd : 0 = 0 -> hd_error p <> Some ROOT_NAME).
    { intros _. apply (relative_head [] p Habs eq_refl). }
    rewrite normalize_scan. unfold scan. destruct f.
    + destruct (upstream_scan p 0 0 [] Hhd eq_refl) as [Hscan Hnames].
      simpl in Hscan. rewrite Hscan. simpl.
      eexists _, _. split; [reflexivity|]. split; [exact Hnames|right; reflexivity].
    + destruct (plain_scan p 0 [] 0 Hhd eq_refl) as [H|[acc [n [H Hacc]]]];
        rewrite H; simpl.
      * exists 0, []. repeat split. left. reflexivity.
      * exists 0, acc. repeat split; [exact Hacc|left; reflexivity].
Qed.

(** X1. The result of [normalize] has one of two shapes.  On absolute
    input it is the root sentinel followed by names.  On relative input
    it is a run of [..] followed by names, and the run is empty without
    [allowUpstream]. *)
Theorem normalize_shape (p : list string) (f : bool) :
  (is_absolute p = true
   /\ exists out, normalize p f = ROOT_NAME :: out /\ forallb is_name out = true)
  \/ (is_absolute p = false
      /\ exists k out,
           normalize p f = repeat ".." k ++ out
           /\ forallb is_name out = true
           /\ (k = 0 \/ f = true)).
Proof. exact (shape_of_normalize p f). Qed.

Lemma normalize_twice (p : list string) (f : bool) :
  normalize (normalize p f) f = normalize p f.
Proof.
  destruct (shape_of_normalize p f) as [[_ [out [E Hout]]]|[_ [k [out [E [Hout Hk]]]]]];
    rewrite E.
  - rewrite normalize_scan, absolute_start.
    rewrite names_scan by exact Hout. reflexivity.
  - rewrite normalize_scan. unfold scan. destruct Hk as [Hk|Hk]; subst.
    + simpl. rewrite names_scan by exact Hout. reflexivity.
    + rewrite scan_from_app.
      pose proof (escapes_scan k 0 0) as He. simpl in He. rewrite He. simpl.
      rewrite names_scan by exact Hout. reflexivity.
Qed.

(** X2. [normalize] is idempotent on every input, for each value of the
    flag: normalizing a result again changes nothing. *)
Theorem normalize_idempotent_everywhere (p : list string) (f : bool) :
  normalize (normalize p f) f = normalize p f.
Proof. exact (normalize_twice p f). Qed.

Lemma normalize_skip_one (pre post : list string) (p : string) (f : bool) :
  pre <> [] -> p = "" \/ p = "." ->
  normalize (pre ++ p :: post) f = normalize (pre ++ post) f.
Proof.
  intros Hpre Hp.
  change (pre ++ p :: post) with (pre ++ [p] ++ post).
  change (pre ++ post) with (pre ++ [] ++ post).
  apply normalize_rest; [exact Hpre|].
  intros s _. simpl. unfold normalize_body.
  assert (Hlen : (length pre =? 0)%nat = false)
    by (destruct pre; [contradiction|reflexivity]).
  rewrite Hlen. simpl.
  destruct Hp as [->| ->]; simpl; apply alike_refl.
Qed.

(** X3. An empty segment or a [.] after the first element changes
    nothing: [a//b] and [a/./b] normalize as [a/b]. *)
Theorem normalize_skips (pre post : list string) (p : string) (f : bool) :
  pre <> [] -> p = "" \/ p = "." ->
  normalize (pre ++ p :: post) f = normalize (pre ++ post) f.
Proof. exact (normalize_skip_one pre post p f). Qed.

Lemma normalize_skips_witness :
  normalize (["a"] ++ "" :: ["b"]) true = normalize (["a"] ++ ["b"]) true.
Proof.
  apply (normalize_skips ["a"] ["b"] "" true); [discriminate|left; reflexivity].
Defined.

(** X4. A name followed by [..] cancels, anywhere after the first
    element: [a/b/../c] normalizes as [a/c]. *)
Theorem normalize_cancels (pre post : list string) (x : string) (f : bool) :
  pre <> [] -> is_name x = true ->
  normalize (pre ++ x :: ".." :: post) f = normalize (pre ++ post) f.
Proof.
  intros Hpre Hx.
  change (pre ++ x :: ".." :: post) with (pre ++ [x; ".."] ++ post).
  change (pre ++ post) with (pre ++ [] ++ post).
  apply normalize_rest; [exact Hpre|].
  intros s Hs. apply scan_anchored in Hs.
  apply is_name_true in Hx. destruct Hx as [H1 [H2 H3]].
  simpl. unfold normalize_body.
  assert (Hlen : (length pre =? 0)%nat = false)
    by (destruct pre; [contradiction|reflexivity]).
  rewrite Hlen. simpl.
  destruct (String.eqb_spec x ""); [contradiction|].
  destruct (String.eqb_spec x "."); [contradiction|].
  destruct (String.eqb_spec x ".."); [contradiction|]. simpl.
  unfold Js.push, Js.pop. rewrite length_app. simpl.
  destruct s as [r m a]. unfold anchored in Hs. simpl in *.
  destruct a; simpl.
  - specialize (Hs eq_refl).
    replace (1 <? length r + 1)%nat with true
      by (symmetry; apply Nat.ltb_lt; destruct r; [contradiction|simpl; lia]).
    rewrite removelast_last. unfold alike. simpl. repeat split.
    intros _ H. discriminate.
  - destruct f; simpl.
    + rewrite removelast_last, Nat.sub_0_r. apply alike_refl.
    + replace (0 <? length r + 1)%nat with true
        by (symmetry; apply Nat.ltb_lt; lia).
      rewrite removelast_last. unfold alike. simpl. repeat split.
      intros H. discriminate.
Qed.

Lemma normalize_cancels_witness :
  normalize (["a"] ++ "b" :: ".." :: ["c"]) false = normalize (["a"] ++ ["c"]) false.
Proof.
  apply (normalize_cancels ["a"] ["c"] "b" false); [discriminate|reflexivity].
Defined.

(** X5. Above the root [..] has no effect: any run of [..] right after
    the root sentinel is dropped. *)
Theorem normalize_clamps_at_root (k : nat) (rest : list string) (f : bool) :
  normalize (ROOT_NAME :: repeat ".." k ++ rest) f = normalize (ROOT_NAME :: rest) f.
Proof.
  change (ROOT_NAME :: repeat ".." k ++ rest)
    with ([ROOT_NAME] ++ repeat ".." k ++ rest).
  change (ROOT_NAME :: rest) with ([ROOT_NAME] ++ [] ++ rest).
  apply normalize_rest; [discriminate|].
  intros s Hs. inversion Hs; subst. clear Hs. simpl length.
  generalize 1 at 1 as i.
  induction k as [|k IH]; intros i; simpl; [apply alike_refl|].
  unfold normalize_body at 1. simpl. rewrite andb_false_r. simpl. apply IH.
Qed.

Lemma normalize_app_absolute (rest b : list string) (f : bool) :
  normalize (normalize (ROOT_NAME :: rest) f ++ b) f
  = normalize ((ROOT_NAME :: rest) ++ b) f.
Proof.
  rewrite (normalize_scan (ROOT_NAME :: rest)), absolute_start.
  destruct (absolute_scan f rest 1 [] 0) as [out [n [Hscan Hout]]];
    [lia|reflexivity|].
  rewrite Hscan. simpl finish.
  rewrite !normalize_scan.
  unfold scan at 2. rewrite (scan_from_app f (ROOT_NAME :: rest) b).
  fold (scan f (ROOT_NAME :: rest)). rewrite absolute_start, Hscan.
  change ((ROOT_NAME :: out) ++ b) with (ROOT_NAME :: (out ++ b)).
  rewrite absolute_start, scan_from_app.
  rewrite names_scan by exact Hout.
  rewrite (scan_from_index f b (1 + length out)
             (0 + length (ROOT_NAME :: rest))) by (simpl; lia).
  apply (alike_finish f). apply scan_from_alike.
  unfold alike. simpl. repeat split. intros _ H. discriminate.
Qed.

(** X6. Normalizing an absolute sequence first and appending afterwards
    gives the same result as normalizing the whole. *)
Theorem normalize_absolute_app (rest b : list string) (f : bool) :
  normalize (normalize (ROOT_NAME :: rest) f ++ b) f
  = normalize ((ROOT_NAME :: rest) ++ b) f.
Proof. exact (normalize_app_absolute rest b f). Qed.

(** ** [resolve] *)

Lemma resolve_loop_done (rargs : list (list string)) (acc : list string) :
  resolve_loop rargs acc true = acc.
Proof. destruct rargs; reflexivity. Qed.

Lemma effective_snoc (args : list (list string)) (a : list string) :
  effective (args ++ [a])
  = if is_absolute a then [a] else effective args ++ [a].
Proof.
  induction args as [|x args IH]; simpl.
  - destruct (is_absolute a); reflexivity.
  - rewrite existsb_app. simpl. rewrite orb_false_r. rewrite IH.
    destruct (is_absolute a); [rewrite orb_true_r; reflexivity|].
    rewrite orb_false_r. destruct (existsb is_absolute args); reflexivity.
Qed.

(** The loop of [resolve] joins the arguments that count. *)
Lemma resolve_loop_effective (args : list (list string)) :
  forall acc,
    resolve_loop (rev args) acc false = concat (effective args) ++ acc.
Proof.
  induction args as [|a args IH] using rev_ind; intros acc; [reflexivity|].
  rewrite rev_app_distr, effective_snoc. simpl.
  destruct a as [|x a]; simpl.
  - rewrite IH. unfold is_absolute. simpl.
    rewrite concat_app. simpl. rewrite app_nil_r. reflexivity.
  - unfold is_absolute. simpl. destruct (String.eqb x ROOT_NAME); simpl.
    + rewrite resolve_loop_done, app_nil_r. reflexivity.
    + rewrite IH, concat_app. simpl. rewrite app_nil_r, <- app_assoc. reflexivity.
Qed.

Lemma resolve_joined (args : list (list string)) :
  resolve args = or_dot (normalize (concat (effective args)) true).
Proof.
  unfold resolve. rewrite resolve_loop_effective, app_nil_r.
  destruct (normalize (concat (effective args)) true); reflexivity.
Qed.

(** X7. [resolve] joins its arguments from the last absolute one on (all
    of them when none is absolute), empty arguments counting for
    nothing, normalizes the result with upstream traversal allowed, and
    answers [.] when nothing is left. *)
Theorem resolve_effective (args : list (list string)) :
  resolve args = or_dot (normalize (concat (effective args)) true).
Proof. exact (resolve_joined args). Qed.

Lemma effective_absolute (args : list (list string)) :
  existsb is_absolute args = true ->
  exists rest, concat (effective args) = ROOT_NAME :: rest.
Proof.
  induction args as [|a args IH]; simpl; [discriminate|].
  destruct (existsb is_absolute args); [intros _; apply IH; reflexivity|].
  rewrite orb_false_r. intros Ha.
  destruct (is_absolute_cons a Ha) as [rest ->]. simpl. eexists. reflexivity.
Qed.

Lemma effective_relative (args : list (list string)) :
  existsb is_absolute args = false ->
  is_absolute (concat (effective args)) = false.
Proof.
  induction args as [|a args IH]; simpl; [reflexivity|].
  intros H. apply orb_false_iff in H. destruct H as [Ha Hargs].
  rewrite Hargs. simpl. specialize (IH Hargs).
  assert (Hsame : forall l, existsb is_absolute l = false -> effective l = l).
  { clear. intros l. destruct l as [|x l]; [reflexivity|]. simpl.
    intros H. apply orb_false_iff in H. destruct H as [_ H]. rewrite H. reflexivity. }
  rewrite (Hsame args Hargs) in IH.
  destruct a as [|x a]; [exact IH|exact Ha].
Qed.

(** X8. The result of [resolve] is never empty.  It is absolute and
    normalized exactly when one of the arguments is absolute; otherwise
    it is relative. *)
Theorem resolve_absolute_iff (args : list (list string)) :
  resolve args <> []
  /\ is_normalized_absolute (resolve args) = existsb is_absolute args
  /\ is_absolute (resolve args) = existsb is_absolute args.
Proof.
  rewrite resolve_joined.
  destruct (existsb is_absolute args) eqn:Habs.
  - destruct (effective_absolute args Habs) as [rest ->].
    pose proof (normalize_absolute_normalized rest true) as Hn.
    destruct (normalize (ROOT_NAME :: rest) true) as [|x out]; [discriminate|].
    simpl or_dot. split; [discriminate|]. split; [exact Hn|].
    simpl in Hn. apply andb_true_iff in Hn. destruct Hn as [Hx _].
    unfold is_absolute. simpl. exact Hx.
  - pose proof (effective_relative args Habs) as Hrel.
    destruct (shape_of_normalize (concat (effective args)) true)
      as [[H _]|[_ [k [out [E [Hout _]]]]]]; [congruence|].
    rewrite E.
    assert (Hhead : is_absolute (or_dot (repeat ".." k ++ out)) = false).
    { destruct k as [|k]; simpl; [|reflexivity].
      destruct out as [|x out]; [reflexivity|]. simpl.
      unfold is_absolute. simpl. unfold names in Hout. simpl in Hout.
      apply andb_true_iff in Hout. destruct Hout as [Hx _].
      apply is_name_true in Hx. destruct Hx as [Hx _].
      destruct (String.eqb_spec x ROOT_NAME); [contradiction|reflexivity]. }
    split; [destruct (repeat ".." k ++ out); discriminate|].
    split; [|exact Hhead].
    destruct (or_dot (repeat ".." k ++ out)) as [|x l]; [reflexivity|].
    unfold is_absolute in Hhead. simpl in *. rewrite Hhead. reflexivity.
Qed.

(** X9. Resolving a result of [resolve] on its own gives it back. *)
Theorem resolve_idempotent (args : list (list string)) :
  resolve [resolve args] = resolve args.
Proof.
  rewrite (resolve_joined [resolve args]). simpl effective.
  simpl concat. rewrite app_nil_r.
  rewrite (resolve_joined args).
  destruct (normalize (concat (effective args)) true) as [|x l] eqn:E; [reflexivity|].
  simpl or_dot. rewrite <- E, normalize_twice, E. reflexivity.
Qed.

Lemma or_dot_normalize_absolute (rest : list string) :
  or_dot (normalize (ROOT_NAME :: rest) true) = normalize (ROOT_NAME :: rest) true.
Proof.
  pose proof (normalize_absolute_normalized rest true) as H.
  destruct (normalize (ROOT_NAME :: rest) true); [discriminate|reflexivity].
Qed.

(** On relative input the first pass may run at any index. *)
Lemma scan_from_relative_index (au : bool) (l : list string) (i j : nat)
    (st : NState) :
  hd_error l <> Some ROOT_NAME ->
  scan_from au i l st = scan_from au j l st.
Proof.
  intros Hhd. destruct l as [|p l]; [reflexivity|]. simpl.
  assert (Hb : forall k, normalize_body au k (Some p) st
                         = normalize_body au 1 (Some p) st).
  { intros k. unfold normalize_body.
    destruct (String.eqb_spec p ROOT_NAME) as [->|_];
      [exfalso; apply Hhd; reflexivity|].
    rewrite andb_false_r. reflexivity. }
  rewrite (Hb i), (Hb j).
  destruct (normalize_body au 1 (Some p) st); [|reflexivity].
  apply scan_from_index; lia.
Qed.

Lemma is_absolute_hd (l : list string) :
  is_absolute l = false -> hd_error l <> Some ROOT_NAME.
Proof. intros H. apply (relative_head [] l H eq_refl). Qed.

(** Normalizing a relative sequence first, as [resolve] does, and
    appending a relative one afterwards gives the same result as
    normalizing the whole. *)
Lemma normalize_app_relative (y b : list string) :
  is_absolute y = false -> is_absolute b = false ->
  normalize (or_dot (normalize y true) ++ b) true = normalize (y ++ b) true.
Proof.
  intros Hy Hb. apply is_absolute_hd in Hb.
  destruct (upstream_scan y 0 0 [] (fun _ => is_absolute_hd y Hy) eq_refl)
    as [Hscan Hnames].
  simpl in Hscan.
  remember (fst (fold_left upstream_step y (0, []))) as k.
  remember (snd (fold_left upstream_step y (0, []))) as out.
  rewrite (normalize_scan y). unfold scan. rewrite Hscan. simpl finish.
  rewrite (normalize_scan (y ++ b)). unfold scan.
  rewrite scan_from_app, Hscan.
  destruct (repeat ".." k ++ out) as [|x r] eqn:E.
  - simpl or_dot. rewrite normalize_scan. unfold scan. simpl.
    destruct k; [|discriminate]. destruct out; [|discriminate]. simpl.
    f_equal. apply scan_from_relative_index. exact Hb.
  - simpl or_dot. rewrite <- E. rewrite normalize_scan. unfold scan.
    rewrite !scan_from_app.
    pose proof (escapes_scan k 0 0) as He. simpl in He. rewrite He.
    rewrite names_scan by exact Hnames. simpl.
    f_equal. apply scan_from_relative_index. exact Hb.
Qed.

Lemma is_absolute_app (x y : list string) :
  is_absolute x = false -> is_absolute y = false -> is_absolute (x ++ y) = false.
Proof. intros Hx Hy. destruct x; [exact Hy|exact Hx]. Qed.

(** Resolving in two steps or in one is the same. *)
Lemma resolve_in_steps (base a b : list string) :
  resolve [resolve [base; a]; b] = resolve [base; a; b].
Proof.
  rewrite (resolve_joined [base; a; b]).
  rewrite (resolve_joined [resolve [base; a]; b]).
  rewrite (resolve_joined [base; a]).
  simpl effective. rewrite !orb_false_r.
  destruct (is_absolute b) eqn:Hb; simpl; [rewrite orb_true_r; reflexivity|].
  rewrite orb_false_r. destruct (is_absolute a) eqn:Ha; simpl; rewrite !app_nil_r.
  - destruct (is_absolute_cons a Ha) as [a' ->].
    rewrite or_dot_normalize_absolute, normalize_app_absolute. reflexivity.
  - destruct (is_absolute base) eqn:Hbase.
    + destruct (is_absolute_cons base Hbase) as [rest ->].
      change ((ROOT_NAME :: rest) ++ a) with (ROOT_NAME :: (rest ++ a)).
      rewrite or_dot_normalize_absolute, normalize_app_absolute.
      simpl. rewrite <- app_assoc. reflexivity.
    + rewrite normalize_app_relative;
        [rewrite <- app_assoc; reflexivity|apply is_absolute_app; assumption|exact Hb].
Qed.

(** X14. Resolving in two steps gives what resolving all arguments at
    once gives. *)
Theorem resolve_associates (base a b : list string) :
  resolve [resolve [base; a]; b] = resolve [base; a; b].
Proof. exact (resolve_in_steps base a b). Qed.

(** ** Strings and sequences *)

Lemma split_nonempty (s : string) : Js.split PATH_SEPERATOR_CHAR s <> [].
Proof.
  destruct s as [|a s]; simpl; [discriminate|].
  destruct (Ascii.eqb a PATH_SEPERATOR_CHAR); [discriminate|].
  destruct (Js.split PATH_SEPERATOR_CHAR s); discriminate.
Qed.

(** Joining what was split gives the string back. *)
Lemma join_split (s : string) :
  Js.join PATH_SEPERATOR (Js.split PATH_SEPERATOR_CHAR s) = s.
Proof.
  induction s as [|a s IH]; [reflexivity|]. simpl Js.split.
  pose proof (split_nonempty s) as Hne.
  destruct (Ascii.eqb_spec a PATH_SEPERATOR_CHAR) as [->|Hne'].
  - destruct (Js.split PATH_SEPERATOR_CHAR s) as [|x xs] eqn:E; [contradiction|].
    change (Js.join PATH_SEPERATOR ("" :: x :: xs))
      with (String PATH_SEPERATOR_CHAR (Js.join PATH_SEPERATOR (x :: xs))).
    rewrite IH. reflexivity.
  - destruct (Js.split PATH_SEPERATOR_CHAR s) as [|x xs] eqn:E; [contradiction|].
    destruct xs as [|y ys]; simpl in *; rewrite <- IH; reflexivity.
Qed.

Lemma split_free (x : string) :
  sep_free x = true -> Js.split PATH_SEPERATOR_CHAR x = [x].
Proof.
  induction x as [|a x IH]; simpl; [reflexivity|].
  intros H. apply andb_true_iff in H. destruct H as [Ha Hx].
  apply negb_true_iff in Ha. rewrite Ha, (IH Hx). reflexivity.
Qed.

Lemma split_app (x rest : string) :
  sep_free x = true ->
  Js.split PATH_SEPERATOR_CHAR (x ++ String PATH_SEPERATOR_CHAR rest)
  = x :: Js.split PATH_SEPERATOR_CHAR rest.
Proof.
  induction x as [|a x IH]; simpl.
  - intros _. reflexivity.
  - intros H. apply andb_true_iff in H. destruct H as [Ha Hx].
    apply negb_true_iff in Ha. rewrite Ha, (IH Hx). reflexivity.
Qed.

(** Splitting what was joined gives the sequence back, when no segment
    holds a separator. *)
Lemma split_join (p : list string) :
  p <> [] -> forallb sep_free p = true ->
  Js.split PATH_SEPERATOR_CHAR (Js.join PATH_SEPERATOR p) = p.
Proof.
  induction p as [|x p IH]; [contradiction|]. intros _ H. simpl in H.
  apply andb_true_iff in H. destruct H as [Hx Hp].
  destruct p as [|y p]; [apply split_free; exact Hx|].
  change (Js.join PATH_SEPERATOR (x :: y :: p))
    with (x ++ String PATH_SEPERATOR_CHAR (Js.join PATH_SEPERATOR (y :: p)))%string.
  rewrite split_app by exact Hx. f_equal. apply IH; [discriminate|exact Hp].
Qed.

Lemma split_sep_free (s : string) :
  forallb sep_free (Js.split PATH_SEPERATOR_CHAR s) = true.
Proof.
  induction s as [|a s IH]; [reflexivity|]. simpl Js.split.
  destruct (Ascii.eqb a PATH_SEPERATOR_CHAR) eqn:Ea; [simpl; exact IH|].
  destruct (Js.split PATH_SEPERATOR_CHAR s) as [|x xs]; simpl in *;
    rewrite Ea; [reflexivity|exact IH].
Qed.

Lemma at_last_cons {A} (a : A) (l : list A) :
  Js.at_last (a :: l) = match l with [] => Some a | _ => Js.at_last l end.
Proof.
  unfold Js.at_last. simpl. rewrite Nat.sub_0_r.
  destruct l as [|b l]; [reflexivity|]. simpl. rewrite Nat.sub_0_r. reflexivity.
Qed.

Lemma at_last_snoc {A} (l : list A) (x : A) : Js.at_last (l ++ [x]) = Some x.
Proof.
  induction l as [|a l IH]; [reflexivity|].
  change ((a :: l) ++ [x]) with (a :: (l ++ [x])). rewrite at_last_cons, IH.
  destruct (l ++ [x]) eqn:E; [destruct l; discriminate|reflexivity].
Qed.

Lemma at_last_split_cons (s : string) :
  forall a,
    Js.strict_eq (Js.at_last (Js.split PATH_SEPERATOR_CHAR (String a s))) (Some "")
    = ends_with_sep (String a s).
Proof.
  induction s as [|b s IH]; intros a.
  - simpl. destruct (Ascii.eqb a PATH_SEPERATOR_CHAR); reflexivity.
  - change (ends_with_sep (String a (String b s))) with (ends_with_sep (String b s)).
    rewrite <- (IH b).
    change (Js.split PATH_SEPERATOR_CHAR (String a (String b s)))
      with (if Ascii.eqb a PATH_SEPERATOR_CHAR
            then EmptyString :: Js.split PATH_SEPERATOR_CHAR (String b s)
            else match Js.split PATH_SEPERATOR_CHAR (String b s) with
                 | [] => [String a EmptyString]
                 | x :: xs => String a x :: xs
                 end).
    pose proof (split_nonempty (String b s)) as Hne.
    pose proof (join_split (String b s)) as Hj.
    destruct (Js.split PATH_SEPERATOR_CHAR (String b s)) as [|x xs]; [contradiction|].
    destruct (Ascii.eqb a PATH_SEPERATOR_CHAR); rewrite !at_last_cons.
    + reflexivity.
    + destruct xs as [|y ys]; [|reflexivity].
      simpl in Hj. subst x. reflexivity.
Qed.

(** The split ends in an empty segment exactly for the empty string and
    for a string that ends in a separator. *)
Lemma at_last_split (s : string) :
  Js.strict_eq (Js.at_last (Js.split PATH_SEPERATOR_CHAR s)) (Some "")
  = String.eqb s "" || ends_with_sep s.
Proof.
  destruct s as [|a s]; [reflexivity|]. apply at_last_split_cons.
Qed.

Lemma split_snoc_sep (s : string) :
  Js.split PATH_SEPERATOR_CHAR (s ++ PATH_SEPERATOR)
  = Js.split PATH_SEPERATOR_CHAR s ++ [""].
Proof.
  induction s as [|a s IH]; [reflexivity|].
  change ((String a s ++ PATH_SEPERATOR)%string) with (String a (s ++ PATH_SEPERATOR)).
  simpl Js.split. rewrite IH.
  destruct (Ascii.eqb a PATH_SEPERATOR_CHAR); [reflexivity|].
  pose proof (split_nonempty s) as Hne.
  destruct (Js.split PATH_SEPERATOR_CHAR s); [contradiction|reflexivity].
Qed.

Lemma toArray_of_toString (p : list string) :
  forallb sep_free p = true ->
  p = [ROOT_NAME] \/ Js.at_last p <> Some "" ->
  toArray (toString p) = p.
Proof.
  intros Hfree [->|Hlast]; [reflexivity|].
  destruct p as [|x p]; [reflexivity|].
  assert (Hstr : toString (x :: p) = Js.join PATH_SEPERATOR (x :: p)).
  { unfold toString. simpl.
    destruct (String.eqb_spec x ROOT_NAME) as [->|_]; [|reflexivity].
    destruct p; [exfalso; apply Hlast; reflexivity|reflexivity]. }
  rewrite Hstr. unfold toArray.
  rewrite split_join by (discriminate || exact Hfree).
  destruct (Js.at_last (x :: p)) as [l|] eqn:E; [|reflexivity].
  simpl. destruct (String.eqb_spec l ""); [subst; contradiction|reflexivity].
Qed.

(** X10. [toArray] undoes [toString] on every sequence whose segments
    hold no separator and whose last segment is not empty, and on the
    root. *)
Theorem toArray_toString (p : list string) :
  forallb sep_free p = true ->
  p = [ROOT_NAME] \/ Js.at_last p <> Some "" ->
  toArray (toString p) = p.
Proof. exact (toArray_of_toString p). Qed.

Lemma toArray_toString_witness :
  toArray (toString [""; "folder"; "file.txt"]) = [""; "folder"; "file.txt"].
Proof.
  apply (toArray_toString [""; "folder"; "file.txt"]); [reflexivity|].
  right. discriminate.
Defined.

(** X11. [toString] undoes [toArray] on every string that does not end
    in a separator. *)
Theorem toString_toArray (s : string) :
  ends_with_sep s = false -> toString (toArray s) = s.
Proof.
  intros Hend. unfold toArray. rewrite at_last_split, Hend, orb_false_r.
  destruct (String.eqb_spec s "") as [->|Hne]; [reflexivity|].
  unfold toString.
  destruct (Js.strict_eq (Js.get (Js.split PATH_SEPERATOR_CHAR s) 0) (Some ROOT_NAME)
            && (length (Js.split PATH_SEPERATOR_CHAR s) =? 1)%nat) eqn:E;
    [|apply join_split].
  exfalso. apply Hne. rewrite <- (join_split s).
  apply andb_true_iff in E. destruct E as [Eh El].
  destruct (Js.split PATH_SEPERATOR_CHAR s) as [|x [|y l]]; try discriminate.
  simpl in Eh. apply String.eqb_eq in Eh. subst. reflexivity.
Qed.

Lemma toString_toArray_witness :
  toString (toArray "/folder/../file.txt") = "/folder/../file.txt".
Proof. apply (toString_toArray "/folder/../file.txt"). reflexivity. Defined.

(** X12. One separator at the end of a string that is not empty and does
    not end in one already makes no difference to [toArray]. *)
Theorem toArray_trailing_separator (s : string) :
  s <> "" -> ends_with_sep s = false ->
  toArray (s ++ PATH_SEPERATOR) = toArray s.
Proof.
  intros Hne Hend. unfold toArray.
  rewrite split_snoc_sep, at_last_snoc. simpl Js.strict_eq. cbv iota.
  unfold Js.pop. rewrite removelast_last.
  rewrite at_last_split, Hend, orb_false_r.
  destruct (String.eqb_spec s ""); [contradiction|reflexivity].
Qed.

Lemma toArray_trailing_separator_witness :
  toArray ("folder/sub" ++ PATH_SEPERATOR) = toArray "folder/sub".
Proof.
  apply (toArray_trailing_separator "folder/sub"); [discriminate|reflexivity].
Defined.

(** X13. No segment that [toArray] returns holds a separator. *)
Theorem toArray_sep_free (s : string) : forallb sep_free (toArray s) = true.
Proof.
  unfold toArray. pose proof (split_sep_free s) as H.
  destruct (Js.strict_eq (Js.at_last (Js.split PATH_SEPERATOR_CHAR s)) (Some ""));
    [|exact H].
  rewrite forallb_forall in *. intros x Hx. apply H.
  unfold Js.pop in Hx. clear H.
  induction (Js.split PATH_SEPERATOR_CHAR s) as [|a l IH]; simpl in *; [contradiction|].
  destruct l; [contradiction|]. destruct Hx as [<-|Hx]; [left; reflexivity|].
  right. apply IH. exact Hx.
Qed.

Lemma toString_rooted (rest : list string) :
  toString (ROOT_NAME :: rest) = (PATH_SEPERATOR ++ Js.join PATH_SEPERATOR rest)%string.
Proof. destruct rest as [|x rest]; reflexivity. Qed.

End PathMore.

(* ================================================================== *)
(** * Further properties of the navigator *)
(* ================================================================== *)

(** X15. [isChildOrEqual] holds exactly when the second sequence is the
    first one followed by some suffix. *)
Theorem isChildOrEqual_iff (cd path : list string) :
  isChildOrEqual cd path = true <-> exists suffix, path = cd ++ suffix.
Proof.
  rewrite isChildOrEqual_is_prefix. apply is_prefix_app.
Qed.

(** The empty path and [.] resolve to the current path. *)
Lemma resolvePath_here (cur : list string) (path : PathArg) :
  PathSpec.is_normalized_absolute cur = true ->
  path_of path = [] \/ path_of path = ["."] ->
  resolvePath cur path = cur.
Proof.
  intros Hcur Hp.
  destruct (PathFacts.normalized_absolute_inv cur Hcur) as [rest [-> Hrest]].
  unfold resolvePath. rewrite PathMore.resolve_joined.
  assert (Hn : Path.normalize (Path.ROOT_NAME :: rest) true = Path.ROOT_NAME :: rest).
  { rewrite PathFacts.normalize_scan, PathFacts.absolute_start.
    rewrite PathMore.names_scan by exact Hrest. reflexivity. }
  destruct Hp as [-> | ->]; simpl MoreSpec.effective; simpl concat.
  - rewrite !app_nil_r, Hn. reflexivity.
  - change (Path.ROOT_NAME :: rest ++ ["."])
      with ((Path.ROOT_NAME :: rest) ++ "." :: []).
    rewrite PathMore.normalize_skip_one; [|discriminate|right; reflexivity].
    rewrite app_nil_r, Hn. reflexivity.
Qed.

Section NavigatorMore.

Context {Store DirH FileH Blob Writable Chunk : Type}.
Context {FS : FileSystemAPI Store DirH FileH Blob Writable Chunk}.

Lemma getDir_cached (path : PathArg) (create : bool) (w : World Store DirH) :
  resolvePath (current_path (this w)) path = current_path (this w) ->
  getDir path create w = (Ok (current_handle (this w)), w).
Proof.
  intros Heq. rewrite getDir_unfold. cbv zeta. rewrite Heq.
  rewrite MemFacts.is_prefix_refl, skipn_all. destruct w. reflexivity.
Qed.

(** X16. For the current directory itself [getDir] answers with the
    cached handle and calls nothing: this is the case of every path that
    resolves to the current path, and of [.] and the empty path. *)
Theorem getDir_here (w : World Store DirH) (path : PathArg) (create : bool) :
  (resolvePath (current_path (this w)) path = current_path (this w) ->
   getDir path create w = (Ok (current_handle (this w)), w))
  /\ (nav_invariant (this w) ->
      path_of path = [] \/ path_of path = ["."] ->
      getDir path create w = (Ok (current_handle (this w)), w)).
Proof.
  split; [apply getDir_cached|].
  intros Hinv Hp. apply getDir_cached. apply resolvePath_here; assumption.
Qed.

(** X17. [cd] to [.] or to the empty path changes nothing and calls
    nothing. *)
Theorem cd_here (w : World Store DirH) (path : PathArg) :
  nav_invariant (this w) ->
  path_of path = [] \/ path_of path = ["."] ->
  cd path w = (Ok (current_handle (this w)), w).
Proof.
  intros Hinv Hp. rewrite cd_unfold.
  pose proof (resolvePath_here _ path Hinv Hp) as Hr.
  rewrite (getDir_cached path false w Hr), Hr.
  destruct w as [[r [h p]] st]. reflexivity.
Qed.

Lemma cd_path (path : PathArg) (w w1 : World Store DirH) (h : DirH) :
  cd path w = (Ok h, w1) ->
  current_path (this w1) = resolvePath (current_path (this w)) path.
Proof.
  rewrite cd_unfold. pose proof (getDir_keeps_this path false w) as Hthis.
  destruct (getDir path false w) as [[h'|e] w']; [|discriminate].
  simpl in Hthis. intros H. inversion H; subst. simpl.
  unfold current_path at 1. simpl. rewrite Hthis. reflexivity.
Qed.

(** X18. After [cd a] and then [cd b] the current path is the resolution
    of [a] and [b] together against the path before. *)
Theorem cd_composes (a b : PathArg) (w w1 w2 : World Store DirH) (h1 h2 : DirH) :
  cd a w = (Ok h1, w1) ->
  cd b w1 = (Ok h2, w2) ->
  current_path (this w2)
  = Path.resolve [current_path (this w); path_of a; path_of b].
Proof.
  intros Ha Hb. rewrite (cd_path b w1 w2 h2 Hb), (cd_path a w w1 h1 Ha).
  unfold resolvePath. apply PathMore.resolve_in_steps.
Qed.

(** X19. [pwd] returns a string that starts with the separator, and
    [resolve] of [.] returns the same string. *)
Theorem pwd_rooted (w : World Store DirH) :
  nav_invariant (this w) ->
  pwd w = (Ok (Path.PATH_SEPERATOR
               ++ Js.join Path.PATH_SEPERATOR (tl (current_path (this w))))%string,
           w)
  /\ resolve (IsPath (PStr ".")) w = pwd w.
Proof.
  intros Hinv. split.
  - unfold pwd, bind, read_this, ret.
    destruct (PathFacts.normalized_absolute_inv _ Hinv) as [rest [E _]].
    rewrite E, PathMore.toString_rooted. reflexivity.
  - unfold resolve, pwd, bind, read_this, ret.
    rewrite (resolvePath_here _ (PStr ".") Hinv); [reflexivity|right; reflexivity].
Qed.

Lemma at_last_in {A} (l : list A) (x : A) : Js.at_last l = Some x -> In x l.
Proof.
  unfold Js.at_last. destruct l as [|a l]; [discriminate|].
  apply nth_error_In.
Qed.

(** X20. Splitting the string that [pwd] returns gives the current path
    back, when no name of it holds a separator. *)
Theorem pwd_round_trip (w : World Store DirH) :
  nav_invariant (this w) ->
  forallb MoreSpec.sep_free (current_path (this w)) = true ->
  exists str, pwd w = (Ok str, w) /\ Path.toArray str = current_path (this w).
Proof.
  intros Hinv Hfree. exists (Path.toString (current_path (this w))).
  split; [reflexivity|].
  apply PathMore.toArray_of_toString; [exact Hfree|].
  destruct (PathFacts.normalized_absolute_inv _ Hinv) as [rest [E Hrest]].
  rewrite E. destruct rest as [|x rest]; [left; reflexivity|right].
  rewrite PathMore.at_last_cons. intros H. apply at_last_in in H.
  unfold PathSpec.names in Hrest. rewrite forallb_forall in Hrest.
  apply Hrest in H. discriminate.
Qed.

(** X21. For a target that is not the current directory itself [getFile]
    walks to the parent and asks it for the last name: from the cached
    handle when the target lies below the current path, from the root
    handle when the current path is no prefix of the target. *)
Theorem getFile_parent_walk (path : PathArg) (create : bool) (w : World Store DirH) :
  (forall (mid : list string) (leaf : string),
     resolvePath (current_path (this w)) path
     = current_path (this w) ++ mid ++ [leaf] ->
     getFile path create w
     = (dir <- await (walk (current_handle (this w)) mid create) ;;
        await (getFileHandle dir leaf create)) w)
  /\ (forall (r : string) (mid : list string) (leaf : string),
        is_prefix (current_path (this w))
          (resolvePath (current_path (this w)) path) = false ->
        resolvePath (current_path (this w)) path = r :: mid ++ [leaf] ->
        getFile path create w
        = (dir <- await (walk (rootHandle (this w)) mid create) ;;
           await (getFileHandle dir leaf create)) w).
Proof.
  split.
  - intros mid leaf H. apply getFile_below_current. exact H.
  - intros r mid leaf Hp H. apply (getFile_from_root path create w r mid leaf Hp H).
Qed.

Lemma mapM_ret {A B} (g : A -> B) (xs : list A) (s : Store) :
  mapM (fun x => ret (g x)) xs s = (Ok (map g xs), s).
Proof.
  induction xs as [|x xs IH]; [reflexivity|].
  simpl. unfold bind, ret in *. rewrite IH. reflexivity.
Qed.

Lemma filter_by_map {A} (g : A -> bool) (xs : list A) :
  filter_by xs (map g xs) = List.filter g xs.
Proof.
  induction xs as [|x xs IH]; [reflexivity|]. simpl. rewrite IH. reflexivity.
Qed.

(** X22. With a filter that only looks at the name and the handle, [ls]
    returns the entries that [ls] without a filter returns, in the same
    order, with those dropped that the filter refuses. *)
Theorem ls_filter (path : PathOr DirH)
    (keep : string -> AnyHandle DirH FileH -> bool) (w : World Store DirH) :
  ls path (Some (fun name h => ret (keep name h))) w =
  match ls path None w with
  | (Ok ents, w') => (Ok (List.filter (fun nh => keep (fst nh) (snd nh)) ents), w')
  | (Throw e, w') => (Throw e, w')
  end.
Proof.
  unfold ls, bind.
  destruct (dirOf path false w) as [[dir|e] w1]; [|reflexivity].
  destruct (await (entries dir) w1) as [[ents|e] w2]; [|reflexivity].
  unfold await. cbv beta.
  rewrite (mapM_ret (fun nh => keep (fst nh) (snd nh)) ents (store w2)).
  rewrite filter_by_map. destruct w2. reflexivity.
Qed.

(** X23. Once [write] has opened its stream it closes it, also when the
    seek or the write fails: the backend is left as the call of [close]
    leaves it, and a failure of [close] is what [write] throws. *)
Theorem write_closes (path : PathOr FileH) (content : Chunk)
    (options : option WriteOptions) (w w1 : World Store DirH)
    (fileHandle : FileH) (writable : Writable) (s2 : Store) :
  fileOf path true w = (Ok fileHandle, w1) ->
  createWritable fileHandle (MoreSpec.passed_options options) (store w1)
  = (Ok writable, s2) ->
  exists s3,
    snd (write path content options w)
    = mkWorld (this w1) (snd (writableClose writable s3))
    /\ forall e, fst (writableClose writable s3) = Throw e ->
                 fst (write path content options w) = Throw e.
Proof.
  intros Hfile Hopen.
  assert (Hw : exists body : M Store unit,
             write path content options w
             = await (try_finally body (writableClose writable))
                 (mkWorld (this w1) s2)).
  { unfold write. fold (MoreSpec.passed_options options).
    unfold bind at 1. rewrite Hfile.
    unfold bind at 1. unfold await at 1. rewrite Hopen.
    eexists. reflexivity. }
  destruct Hw as [body ->]. unfold await, try_finally. simpl.
  destruct (body s2) as [r s3].
  exists s3. destruct (writableClose writable s3) as [[u|e] s4]; simpl.
  - split; [reflexivity|]. intros e H. discriminate.
  - split; [reflexivity|]. intros e' H. inversion H; subst. reflexivity.
Qed.

(** X25. [resolve] of a handle asks the root handle for the names that
    lead to it: it throws when there are none, and otherwise returns the
    separator followed by the names joined. *)
Theorem resolve_handle (h : AnyHandle DirH FileH) (w : World Store DirH) :
  (forall s', resolveHandle (rootHandle (this w)) h (store w) = (Ok None, s') ->
     exists msg, resolve (IsHandle h) w = (Throw (Error msg), mkWorld (this w) s'))
  /\ (forall names s',
        resolveHandle (rootHandle (this w)) h (store w) = (Ok (Some names), s') ->
        resolve (IsHandle h) w
        = (Ok (Path.PATH_SEPERATOR ++ Js.join Path.PATH_SEPERATOR names)%string,
           mkWorld (this w) s')).
Proof.
  split.
  - intros s' H. unfold resolve, bind, read_this, await. rewrite H.
    eexists. reflexivity.
  - intros names s' H. unfold resolve, bind, read_this, await. rewrite H.
    unfold ret. rewrite PathMore.toString_rooted. reflexivity.
Qed.

End NavigatorMore.

(* ================================================================== *)
(** * Further properties on the in-memory backend *)
(* ================================================================== *)

Module MemMore.

Import Mem MemSpec MoreSpec MemFacts.

Lemma short_depth (ns : list (Loc * Node)) : short (depth ns) ns.
Proof. intros p Hp. apply depth_bound. exact Hp. Qed.

Lemma get_child_short (n : nat) (want_dir : bool) (d : Loc) (name : string)
    (s : Store) :
  length d < n -> short n (nodes s) ->
  short n (nodes (snd (get_child want_dir d name true s))).
Proof.
  intros Hd Hs. destruct (get_child_effect want_dir d name true s) as [_ [E|E]];
    rewrite E; [exact Hs|].
  intros p Hp. unfold keys in Hp. rewrite map_app, in_app_iff in Hp.
  destruct Hp as [Hp|[<-|[]]]; [apply Hs; exact Hp|].
  simpl. rewrite length_app. simpl. lia.
Qed.

Section CopyShallow.

Variables (D : Loc) (n : nat).
Variable recur : Loc -> Loc -> Loc -> Partial Store unit.
Variables dir to : Loc.

Hypothesis to_shallow : length to <= length dir.

Hypothesis recur_returns :
  forall (name : string) (s : Store),
    length (dir ++ [name]) <= n ->
    short n (nodes s) ->
    exists r s', recur (dir ++ [name]) (to ++ [name]) D s = Some (r, s')
                 /\ short n (nodes s').

Lemma copy_entry_shallow (name : string) (h : AnyHandle Loc Loc) (s : Store) :
  loc_of h = dir ++ [name] -> length (loc_of h) <= n ->
  short n (nodes s) ->
  exists r s', copy_entry recur to D (name, h) s = Some (r, s')
               /\ short n (nodes s').
Proof.
  intros Hloc Hlen Hs. unfold copy_entry. simpl fst. simpl snd.
  assert (Hto : length to < n).
  { rewrite Hloc, length_app in Hlen. simpl in Hlen. lia. }
  destruct h as [c|f]; simpl in Hloc, Hlen; subst.
  - simpl. unfold ret. destruct (loc_eqb (dir ++ [name]) D).
    + exists (Ok tt), s. split; [reflexivity|exact Hs].
    + pose proof (get_child_short n true to name s Hto Hs) as Hs2.
      destruct (get_child_effect true to name true s) as [Hx _].
      destruct (get_child true to name true s) as [[d|e] s2]; simpl in Hx, Hs2.
      * specialize (Hx d eq_refl). subst d.
        apply recur_returns; assumption.
      * exists (Throw e), s2. split; [reflexivity|exact Hs2].
  - unfold bind. simpl.
    pose proof (get_child_short n false to name s Hto Hs) as Hs2.
    destruct (get_child false to name true s) as [[d|e] s2]; simpl in Hs2.
    + destruct (copyFileHelper (dir ++ [name]) d s2) as [r s3] eqn:E.
      destruct (copyFileHelper_quiet (dir ++ [name]) d s2) as [Hk _].
      unfold Loc in *. rewrite E in Hk |- *. simpl in Hk.
      exists r, s3. split; [reflexivity|].
      intros p Hp. apply Hs2. rewrite <- Hk. exact Hp.
    + exists (Throw e), s2. split; [reflexivity|exact Hs2].
Qed.

Lemma copy_entries_shallow (ents : list (string * AnyHandle Loc Loc)) :
  forall (acc : Outcome unit) (s : Store),
    (forall name h, In (name, h) ents ->
       loc_of h = dir ++ [name] /\ length (loc_of h) <= n) ->
    short n (nodes s) ->
    exists r s', copy_entries recur to D ents acc s = Some (r, s')
                 /\ short n (nodes s').
Proof.
  induction ents as [|[name h] ents IH]; intros acc s Hents Hs; simpl.
  - exists acc, s. split; [reflexivity|exact Hs].
  - destruct (Hents name h (or_introl eq_refl)) as [Hloc Hlen].
    destruct (copy_entry_shallow name h s Hloc Hlen Hs) as [r [s1 [Hr Hs1]]].
    rewrite Hr. apply IH; [|exact Hs1].
    intros name' h' Hin. apply Hents. right. exact Hin.
Qed.

End CopyShallow.

(** [copyDirHelper] comes back when the directory it writes to is no
    deeper than the one it reads: the tree then never gets deeper. *)
Lemma copyDirHelper_shallow (D : Loc) (n : nat) :
  forall (fuel : nat) (dir to : Loc) (s : Store),
    0 < fuel -> n < fuel + length dir ->
    length to <= length dir ->
    short n (nodes s) ->
    exists r s', copyDirHelper fuel dir to D s = Some (r, s')
                 /\ short n (nodes s').
Proof.
  induction fuel as [|fuel IH]; intros dir to s Hpos Hfuel Hto Hs; [lia|].
  simpl. unfold list_entries, not_found, throw, ret.
  destruct (lookup (nodes s) dir) as [[|c]|];
    try (eexists _, _; split; [reflexivity|exact Hs]).
  apply (copy_entries_shallow D n (copyDirHelper fuel) dir to Hto).
  - intros name s' Hlen Hs'. rewrite length_app in Hlen. simpl in Hlen.
    apply IH; try assumption; try lia; rewrite !length_app; simpl; lia.
  - intros name h Hin. destruct (children_spec _ _ _ _ Hin) as [Hloc [Hk _]].
    split; [exact Hloc|]. apply Hs. exact Hk.
  - exact Hs.
Qed.



(** ** The navigator on the in-memory backend *)

(** A walk that succeeds returns the location it went to. *)
Lemma walk_location (create : bool) (segments : list string) :
  forall (d h : Loc) (s s' : Store),
    walk d segments create s = (Ok h, s') -> h = d ++ segments.
Proof.
  induction segments as [|x segments IH]; intros d h s s' H; simpl in H.
  - inversion H. symmetry. apply app_nil_r.
  - unfold bind in H.
    destruct (get_child_effect true d x create s) as [Hx _].
    destruct (get_child true d x create s) as [[d'|e] s1]; [|discriminate].
    specialize (Hx d' eq_refl). subst d'.
    rewrite (IH _ _ _ _ H), <- app_assoc. reflexivity.
Qed.

Lemma strip_prefix_app (r x : Loc) : strip_prefix r (r ++ x) = Some x.
Proof.
  induction r as [|a r IH]; [reflexivity|]. simpl.
  rewrite String.eqb_refl. exact IH.
Qed.

(** X26. For a navigator whose cached handle is the directory of its
    current path, the handle that [getDir] returns for a path resolves
    back to the string that [resolve] returns for that path. *)
Theorem getDir_resolve_round_trip (w w' : World Store Loc) (path : PathArg)
    (create : bool) (h : Loc) :
  nav_invariant (this w) ->
  paired (this w) (store w) ->
  getDir path create w = (Ok h, w') ->
  fst (resolve (IsHandle (OfDir h)) w') = fst (resolve (IsPath path) w).
Proof.
  intros Hinv Hpair Hget.
  pose proof (getDir_keeps_this path create w) as Hthis.
  rewrite Hget in Hthis. simpl in Hthis.
  destruct (resolvePath_normalized _ path Hinv) as [_ [_ Hnorm]].
  destruct (PathFacts.normalized_absolute_inv _ Hnorm) as [rest [Htarget _]].
  destruct (PathFacts.normalized_absolute_inv _ Hinv) as [cur [Hcur _]].
  assert (Hh : h = rootHandle (this w) ++ rest).
  { unfold paired in Hpair. rewrite Hcur in Hpair. simpl skipn in Hpair.
    apply walk_location in Hpair.
    rewrite getDir_unfold in Hget. cbv zeta in Hget.
    rewrite Htarget, Hcur in Hget.
    destruct (is_prefix (Path.ROOT_NAME :: cur) (Path.ROOT_NAME :: rest)) eqn:Hp.
    - apply is_prefix_app in Hp. destruct Hp as [sfx Hp].
      simpl in Hp. injection Hp as Hrest. subst rest.
      change (skipn (length (Path.ROOT_NAME :: cur)) (Path.ROOT_NAME :: cur ++ sfx))
        with (skipn (length cur) (cur ++ sfx)) in Hget.
      rewrite skipn_app, skipn_all, Nat.sub_diag in Hget. simpl in Hget.
      unfold await in Hget.
      destruct (walk (current_handle (this w)) sfx create (store w)) as [r s1] eqn:Hw.
      inversion Hget; subst r. apply walk_location in Hw.
      rewrite Hw, Hpair, <- app_assoc. reflexivity.
    - simpl skipn in Hget. unfold await in Hget.
      destruct (walk (rootHandle (this w)) rest create (store w)) as [r s1] eqn:Hw.
      inversion Hget; subst r. apply walk_location in Hw. exact Hw. }
  unfold resolve, bind, read_this, await, ret. simpl.
  rewrite Hthis, Hh, strip_prefix_app, Htarget. reflexivity.
Qed.

Lemma getDir_resolve_round_trip_witness :
  fst (resolve (IsHandle (OfDir ["a"; "x"]))
         (snd (getDir (PStr "x/../../a/x") false (after_cd "/a" (world sample)))))
  = Ok "/a/x".
Proof.
  rewrite (getDir_resolve_round_trip (after_cd "/a" (world sample))
             (snd (getDir (PStr "x/../../a/x") false (after_cd "/a" (world sample))))
             (PStr "x/../../a/x") false ["a"; "x"]); reflexivity.
Defined.

(** ** Instances of the properties of the navigator *)

Lemma isChildOrEqual_iff_witness :
  isChildOrEqual [""; "a"] [""; "a"; "b"] = true.
Proof.
  apply (proj2 (isChildOrEqual_iff [""; "a"] [""; "a"; "b"])).
  exists ["b"]. reflexivity.
Defined.

Lemma getDir_here_witness :
  getDir (PStr ".") false (after_cd "/a" (world sample))
  = (Ok ["a"], after_cd "/a" (world sample)).
Proof.
  apply (proj2 (getDir_here (after_cd "/a" (world sample)) (PStr ".") false));
    [reflexivity|right; reflexivity].
Defined.

Lemma cd_here_witness :
  cd (PStr "") (after_cd "/a" (world sample))
  = (Ok ["a"], after_cd "/a" (world sample)).
Proof.
  apply (cd_here (after_cd "/a" (world sample)) (PStr ""));
    [reflexivity|left; reflexivity].
Defined.

Lemma cd_composes_witness :
  current_path (this (after_cd "../../b" (after_cd "a/x" (world sample))))
  = Path.resolve [[""]; ["a"; "x"]; [".."; ".."; "b"]].
Proof.
  apply (cd_composes (PStr "a/x") (PStr "../../b") (world sample)
           (after_cd "a/x" (world sample))
           (after_cd "../../b" (after_cd "a/x" (world sample)))
           ["a"; "x"] ["b"]); reflexivity.
Defined.

Lemma pwd_rooted_witness :
  pwd (after_cd "/a/x" (world sample)) = (Ok "/a/x", after_cd "/a/x" (world sample)).
Proof.
  apply (proj1 (pwd_rooted (after_cd "/a/x" (world sample)) eq_refl)).
Defined.

Lemma pwd_round_trip_witness :
  exists str,
    pwd (after_cd "/a/x" (world sample)) = (Ok str, after_cd "/a/x" (world sample))
    /\ Path.toArray str = [""; "a"; "x"].
Proof.
  apply (pwd_round_trip (after_cd "/a/x" (world sample))); reflexivity.
Defined.

Lemma getFile_parent_walk_witness :
  getFile (PStr "x/f") false (after_cd "/a" (world sample))
  = (dir <- await (walk ["a"] ["x"] false) ;;
     await (getFileHandle dir "f" false)) (after_cd "/a" (world sample)).
Proof.
  apply (proj1 (getFile_parent_walk (PStr "x/f") false (after_cd "/a" (world sample)))
           ["x"] "f").
  reflexivity.
Defined.

Lemma write_closes_witness :
  exists s3,
    snd (write (IsPath (PStr "/a/g")) "new" None (world sample))
    = mkWorld (this (world sample)) (snd (close_stream 0 s3)).
Proof.
  destruct (write_closes (IsPath (PStr "/a/g")) "new" None (world sample)
              (world sample) ["a"; "g"] 0
              (snd (open_stream ["a"; "g"] None sample)))
    as [s3 [H _]]; [reflexivity|reflexivity|].
  exists s3. exact H.
Defined.

Lemma resolve_handle_witness :
  resolve (IsHandle (OfFile ["a"; "x"; "f"])) (world sample)
  = (Ok "/a/x/f", world sample).
Proof.
  apply (proj2 (resolve_handle (OfFile ["a"; "x"; "f"]) (world sample))
           ["a"; "x"; "f"] sample).
  reflexivity.
Defined.

End MemMore.
